(** * Markdown <-> Word converter: a shallow embedding and its properties

    The development follows the two services of the repository:

    - [DocxConverter]: [convertToDocx] (markdown tokens to a docx document
      model) with its local asset resolver [resolveImage];
    - [MdConverter]: [convertDocxToMd] (Word to markdown) with its image
      callback and the regular-expression clean-up of the decoder's output.

    JavaScript strings are lists of character codes ([jsstring]); the log
    callback [onLog] is an append-only list threaded through the code; the
    external libraries (marked, docx's Packer, mammoth) are parameters. *)

From Stdlib Require Import Strings.String Strings.Ascii.
From Stdlib Require Import Numbers.DecimalString.
From Stdlib Require Import Numbers.DecimalNat Numbers.DecimalFacts.
From Stdlib Require Import Init.Byte.
From Stdlib Require Import ZArith Arith Bool Lia.
From Stdlib Require Import Lists.List.
From Stdlib Require Import Sorting.Permutation.
Import ListNotations.

Set Implicit Arguments.
Open Scope string_scope.
Open Scope list_scope.

(* ================================================================== *)
(** * JavaScript strings *)
(* ================================================================== *)

Module Js.

(** A string is its sequence of code units. *)
Definition jsstring := list ascii.

(** String literals of the source. *)
Definition lit (s : string) : jsstring := list_ascii_of_string s.

(** [a === b] on strings. *)
Fixpoint str_eqb (a b : jsstring) : bool :=
  match a, b with
  | [], [] => true
  | x :: a', y :: b' => Ascii.eqb x y && str_eqb a' b'
  | _, _ => false
  end.

(** [s.startsWith(p)]; also the test of a literal regex fragment at the
    current position. *)
Fixpoint startsWith (s p : jsstring) {struct p} : bool :=
  match p with
  | [] => true
  | y :: p' =>
      match s with
      | [] => false
      | x :: s' => Ascii.eqb x y && startsWith s' p'
      end
  end.

(** [s.endsWith(x)]: [x] is no longer than [s] and equals its tail of the
    same length. *)
Definition endsWith (s x : jsstring) : bool :=
  (length x <=? length s)%nat && str_eqb (skipn (length s - length x) s) x.

(** [s.split(sep)] for a one-character separator: never empty, the empty
    string splits into one empty piece. *)
Fixpoint split (sep : ascii) (s : jsstring) : list jsstring :=
  match s with
  | [] => [[]]
  | c :: t =>
      if Ascii.eqb c sep then [] :: split sep t
      else match split sep t with
           | piece :: rest => (c :: piece) :: rest
           | [] => [[c]]
           end
  end.

(** [parts.join(sep)], the inverse of [split]. *)
Fixpoint join (sep : ascii) (parts : list jsstring) : jsstring :=
  match parts with
  | [] => []
  | [p] => p
  | p :: rest => p ++ sep :: join sep rest
  end.

(** [parts.pop() || ''] on the result of a split. *)
Definition popOrEmpty (parts : list jsstring) : jsstring := last parts [].

(** [xs.map((x, index) => f(x, index))]. *)
Fixpoint mapi_from {A B} (f : A -> nat -> B) (index : nat) (xs : list A)
  : list B :=
  match xs with
  | [] => []
  | x :: rest => f x index :: mapi_from f (S index) rest
  end.

Definition mapi {A B} (f : A -> nat -> B) (xs : list A) : list B :=
  mapi_from f 0 xs.

(** The character class [\d]. *)
Definition isDigit (c : ascii) : bool :=
  let n := nat_of_ascii c in ((48 <=? n) && (n <=? 57))%nat.

(** Template-literal rendering [`${n}`] of a counter: decimal digits. *)
Definition decimal (n : nat) : jsstring :=
  lit (NilZero.string_of_uint (Nat.to_uint n)).

(** [t] occurs in [s] as a contiguous substring. *)
Definition Substring (t s : jsstring) : Prop :=
  exists pre post, s = pre ++ t ++ post.

(** Number of positions of [s] at which [t] starts. *)
Fixpoint countOcc (t s : jsstring) : nat :=
  match s with
  | [] => 0
  | _ :: s' => (if startsWith s t then 1 else 0) + countOcc t s'
  end.

(** ** Global regular-expression replacement

    [s.replace(/re/g, repl)] scans [s] from left to right.  A [Matcher]
    answers, for the text at the current position, whether the expression
    matches there, and if so with which replacement text and how many
    characters the match spans (at least one for every expression of this
    program).  After a match the scan resumes behind it, so matches never
    overlap; unmatched characters are copied. *)
Definition Matcher := jsstring -> option (jsstring * nat).

(** [skip] is the number of characters of the current match that are
    still to be passed over. *)
Fixpoint replaceGo (m : Matcher) (skip : nat) (s : jsstring) : jsstring :=
  match s with
  | [] => []
  | c :: t =>
      match skip with
      | S k => replaceGo m k t
      | O =>
          match m s with
          | Some (repl, len) => repl ++ replaceGo m (pred len) t
          | None => c :: replaceGo m 0 t
          end
      end
  end.

Definition replaceAll (m : Matcher) (s : jsstring) : jsstring :=
  replaceGo m 0 s.

(** Removes a literal prefix. *)
Fixpoint stripPrefix (p s : jsstring) : option jsstring :=
  match p with
  | [] => Some s
  | y :: p' =>
      match s with
      | [] => None
      | x :: s' => if Ascii.eqb x y then stripPrefix p' s' else None
      end
  end.

(** The longest run of digits at the front ([\d+] is greedy), and what
    follows it. *)
Fixpoint takeDigits (s : jsstring) : jsstring * jsstring :=
  match s with
  | [] => ([], [])
  | c :: t =>
      if isDigit c then let (ds, r) := takeDigits t in (c :: ds, r)
      else ([], s)
  end.

End Js.
Import Js.

(** Case analysis on all 256 characters. *)
Ltac each_ascii c :=
  destruct c as [[] [] [] [] [] [] [] []].

(** A value raised by [throw]: an [Error] object with its message, or
    anything else. *)
Inductive JsThrown : Type :=
| ErrorObject (message : jsstring)
| OtherThrown (description : jsstring).

(* ================================================================== *)
(** * The log callback *)
(* ================================================================== *)

Module Logging.

Inductive LogLevel : Type := LInfo | LSuccess | LWarning | LError.

Definition LogEntry : Type := jsstring * LogLevel.

(** What [onLog] has been called with so far, oldest call first. *)
Definition Log : Type := list LogEntry.

(** Code that may call [onLog]: it receives the log and hands it on. *)
Definition Sink (A : Type) : Type := Log -> A * Log.

Definition ret {A} (a : A) : Sink A := fun log => (a, log).

Definition bind {A B} (c : Sink A) (k : A -> Sink B) : Sink B :=
  fun log => let (a, log') := c log in k a log'.

Definition onLog (msg : jsstring) (level : LogLevel) : Sink unit :=
  fun log => (tt, log ++ [(msg, level)]).

(** A loop [for (const x of xs) { ... out.push(...) }] over a fresh local
    array [out]: the pushes of every iteration, in order. *)
Fixpoint forEachPush {A B} (body : A -> Sink (list B)) (xs : list A)
  : Sink (list B) :=
  match xs with
  | [] => ret []
  | x :: rest =>
      bind (body x) (fun pushed =>
      bind (forEachPush body rest) (fun later =>
      ret (pushed ++ later)))
  end.

End Logging.
Import Logging.

Notation "'do' x <- c1 ; c2" := (bind c1 (fun x => c2))
  (at level 60, x name, c1 at next level, right associativity).
Notation "'do_' c1 ; c2" := (bind c1 (fun _ => c2))
  (at level 60, c1 at next level, right associativity).

(* ================================================================== *)
(** * services/docxConverter: markdown tokens to a Word document *)
(* ================================================================== *)

Module DocxConverter.

Definition ArrayBuffer : Type := list byte.

(** [Map<string, ArrayBuffer>]: the entries in insertion order, which is
    the order [entries()] iterates in.  A JavaScript map holds each key
    once ([map_wf]); [map_get] and [map_has] are lookups by key. *)
Definition ImageMap : Type := list (jsstring * ArrayBuffer).

Definition map_wf (images : ImageMap) : Prop := NoDup (map fst images).

Fixpoint map_get (images : ImageMap) (key : jsstring) : option ArrayBuffer :=
  match images with
  | [] => None
  | (k, v) :: rest => if str_eqb k key then Some v else map_get rest key
  end.

Definition map_has (images : ImageMap) (key : jsstring) : bool :=
  match map_get images key with
  | Some _ => true
  | None => false
  end.

(** [images.set(key, val)]: an existing key keeps its place. *)
Fixpoint map_set (images : ImageMap) (key : jsstring) (val : ArrayBuffer)
  : ImageMap :=
  match images with
  | [] => [(key, val)]
  | (k, v) :: rest =>
      if str_eqb k key then (k, val) :: rest
      else (k, v) :: map_set rest key val
  end.

(** [href.replace(/^\.?\//, '')]: one leading [./] or [/] is dropped. *)
Definition normalizeHref (href : jsstring) : jsstring :=
  match stripPrefix (lit "./") href with
  | Some rest => rest
  | None =>
      match stripPrefix (lit "/") href with
      | Some rest => rest
      | None => href
      end
  end.

(** [href.split('/').pop() || '']. *)
Definition fileNameOf (href : jsstring) : jsstring :=
  popOrEmpty (split "/"%char href).

(** Step 4 of [resolveImage]: the loop over [images.entries()]. *)
Fixpoint deepSearch (entries : ImageMap) (href normalized : jsstring)
  : option ArrayBuffer :=
  match entries with
  | [] => None
  | (key, val) :: rest =>
      if endsWith key href || endsWith key normalized then Some val
      else deepSearch rest href normalized
  end.

(** The test of step 4 on one key. *)
Definition deepMatch (href normalized key : jsstring) : bool :=
  endsWith key href || endsWith key normalized.

(** The closure [resolveImage] of [convertToDocx]; [None] is
    [undefined]. *)
Definition resolveImage (images : ImageMap) (href : jsstring)
  : option ArrayBuffer :=
  if map_has images href then map_get images href
  else
    let normalized := normalizeHref href in
    if map_has images normalized then map_get images normalized
    else
      let fileName := fileNameOf href in
      if map_has images fileName then map_get images fileName
      else deepSearch images href normalized.

(** The four [return] statements of [resolveImage]. *)
Inductive ResolutionStep : Type :=
| ExactMatch | NormalizedPath | FileNameOnly | DeepSearch.

(** [resolveImage] again, each [return] labelled with the step it belongs
    to ([resolveImageVia_payload] shows that the payload is the same). *)
Definition resolveImageVia (images : ImageMap) (href : jsstring)
  : option (ResolutionStep * ArrayBuffer) :=
  let tag step := option_map (fun data => (step, data)) in
  if map_has images href then tag ExactMatch (map_get images href)
  else
    let normalized := normalizeHref href in
    if map_has images normalized
    then tag NormalizedPath (map_get images normalized)
    else
      let fileName := fileNameOf href in
      if map_has images fileName
      then tag FileNameOnly (map_get images fileName)
      else tag DeepSearch (deepSearch images href normalized).

(** ** The docx object model, as far as the converter fills it in *)

Inductive HeadingLevel : Type :=
| HEADING_1 | HEADING_2 | HEADING_3 | HEADING_4.

(** Options of [new TextRun({...})]; [new TextRun(s)] sets the text only.
    [run_break] is the number of line breaks placed before the text. *)
Record TextRun : Type := mkTextRun {
  run_text : option jsstring;
  run_bold : bool;
  run_italic : bool;
  run_font : option jsstring;
  run_size : option Z;
  run_color : option jsstring;
  run_style : option jsstring;
  run_underline : bool;
  run_shading : option jsstring;
  run_break : nat
}.

Definition plainRun (text : jsstring) : TextRun :=
  mkTextRun (Some text) false false None None None None false None 0.

Inductive ParagraphChild : Type :=
| CTextRun (run : TextRun)
| CImageRun (data : ArrayBuffer) (width height : Z)
| CExternalHyperlink (children : list TextRun) (link : jsstring).

Record Spacing : Type := mkSpacing {
  sp_before : option Z;
  sp_after : option Z;
  sp_line : option Z
}.

Inductive BorderStyle : Type := SINGLE.

Record BorderSide : Type := mkBorderSide {
  bd_color : jsstring;
  bd_space : Z;
  bd_style : BorderStyle;
  bd_size : Z
}.

Record Borders : Type := mkBorders {
  bd_top : option BorderSide;
  bd_bottom : option BorderSide;
  bd_left : option BorderSide;
  bd_right : option BorderSide
}.

(** Options of [new Paragraph({...})]. *)
Record Paragraph : Type := mkParagraph {
  p_text : option jsstring;
  p_heading : option HeadingLevel;
  p_children : list ParagraphChild;
  p_bullet : option nat;
  p_spacing : Spacing;
  p_shading : option jsstring;
  p_border : Borders;
  p_indent : option (Z * Z)
}.

Definition noSpacing : Spacing := mkSpacing None None None.
Definition noBorders : Borders := mkBorders None None None None.

(** ** Tokens of [marked.lexer] *)

Inductive SubToken : Type :=
| SubImage (href : jsstring)
| SubLink (text href : jsstring)
| SubStrong (text : jsstring)
| SubEm (text : jsstring)
| SubCodespan (text : jsstring)
| SubText (text : jsstring)
| SubBr
| SubOther.

Inductive Token : Type :=
| THeading (depth : Z) (text : jsstring)
| TParagraph (tokens : option (list SubToken)) (text : jsstring)
| TList (items : list jsstring)
| TCode (text : jsstring)
| THr
| TOther (text : option jsstring).

(** ** The converter *)

Definition newline : ascii := ascii_of_nat 10.

Definition headingOf (depth : Z) : HeadingLevel :=
  if (depth =? 1)%Z then HEADING_1
  else if (depth =? 2)%Z then HEADING_2
  else if (depth =? 3)%Z then HEADING_3
  else HEADING_4.

(** Text of the red run that stands in for an image that was not found. *)
Definition notLoadedText (href : jsstring) : jsstring :=
  newline :: lit "[IMAGE NOT LOADED: " ++ href ++ lit "]" ++ [newline].

Definition notLoadedRun (href : jsstring) : TextRun :=
  mkTextRun (Some (notLoadedText href)) true false None None
            (Some (lit "FF0000")) None false None 0.

(** One iteration of the loop over [token.tokens]: what it pushes onto
    [children]. *)
Definition convertSubToken (images : ImageMap) (subToken : SubToken)
  : Sink (list ParagraphChild) :=
  match subToken with
  | SubImage href =>
      match resolveImage images href with
      | Some imgData =>
          do_ onLog (lit "Matched asset: " ++ href) LSuccess;
          ret [CImageRun imgData 500 300]
      | None =>
          do_ onLog (lit "Image link broken or missing: " ++ href) LWarning;
          ret [CTextRun (notLoadedRun href)]
      end
  | SubLink text href =>
      ret [CExternalHyperlink
             [mkTextRun (Some text) false false None None
                        (Some (lit "0563C1")) (Some (lit "Hyperlink"))
                        true None 0]
             href]
  | SubStrong text =>
      ret [CTextRun (mkTextRun (Some text) true false None None None None
                               false None 0)]
  | SubEm text =>
      ret [CTextRun (mkTextRun (Some text) false true None None None None
                               false None 0)]
  | SubCodespan text =>
      ret [CTextRun (mkTextRun (Some text) false false
                               (Some (lit "Consolas")) None
                               (Some (lit "D11111")) None false
                               (Some (lit "F3F4F6")) 0)]
  | SubText text => ret [CTextRun (plainRun text)]
  | SubBr =>
      ret [CTextRun (mkTextRun None false false None None None None
                               false None 1)]
  | SubOther => ret []
  end.

(** [lines.map((line, index) => new TextRun({...}))] of a code token. *)
Definition codeRun (line : jsstring) (index : nat) : TextRun :=
  mkTextRun (Some line) false false (Some (lit "Consolas")) (Some 18%Z)
            None None false None (if (0 <? index)%nat then 1 else 0).

Definition codeRuns (text : jsstring) : list TextRun :=
  mapi codeRun (split newline text).

Definition codeBorder : BorderSide :=
  mkBorderSide (lit "E2E8F0") 8 SINGLE 4.

(** [new Paragraph({ children, spacing: { after: 150 } })]. *)
Definition bodyParagraph (children : list ParagraphChild) : Paragraph :=
  mkParagraph None None children None (mkSpacing None (Some 150%Z) None)
              None noBorders None.

(** One iteration of the loop over the tokens: the paragraphs it pushes
    onto [sections]. *)
Definition convertToken (images : ImageMap) (token : Token)
  : Sink (list Paragraph) :=
  match token with
  | THeading depth text =>
      ret [mkParagraph (Some text) (Some (headingOf depth)) [] None
                       (mkSpacing (Some 400%Z) (Some 200%Z) None)
                       None noBorders None]
  | TParagraph tokens text =>
      do children <-
         match tokens with
         | Some subTokens => forEachPush (convertSubToken images) subTokens
         | None => ret [CTextRun (plainRun text)]
         end;
      ret [bodyParagraph children]
  | TList items =>
      ret (map (fun itemText =>
                  mkParagraph (Some itemText) None [] (Some 0)
                              (mkSpacing None (Some 100%Z) None)
                              None noBorders None)
               items)
  | TCode text =>
      ret [mkParagraph None None (map CTextRun (codeRuns text)) None
                       (mkSpacing (Some 240%Z) (Some 240%Z) (Some 320%Z))
                       (Some (lit "F8F9FA"))
                       (mkBorders (Some codeBorder) (Some codeBorder)
                                  (Some codeBorder) (Some codeBorder))
                       (Some (240%Z, 240%Z))]
  | THr =>
      ret [mkParagraph None None [] None
                       (mkSpacing (Some 200%Z) (Some 200%Z) None)
                       None
                       (mkBorders None
                                  (Some (mkBorderSide (lit "CBD5E1") 1 SINGLE 6))
                                  None None)
                       None]
  | TOther text =>
      match text with
      | Some (c :: t) =>
          ret [mkParagraph (Some (c :: t)) None [] None noSpacing None
                           noBorders None]
      | _ => ret []
      end
  end.

(** The loop [for (const token of tokens)]: the final [sections]. *)
Definition convertTokens (images : ImageMap) (tokens : list Token)
  : Sink (list Paragraph) :=
  forEachPush (convertToken images) tokens.

(** [new Document({ sections: [{ properties: {}, children }] })]. *)
Record Document : Type := mkDocument { doc_children : list Paragraph }.

Section WithLibraries.

(** The tokenizer and the packer are libraries: [marked.lexer] and
    [Packer.toBlob], the latter returning the blob or throwing. *)
Variable Blob : Type.
Variable marked_lexer : jsstring -> list Token.
Variable Packer_toBlob : Document -> Blob + JsThrown.

Definition convertToDocx (markdown : jsstring) (images : ImageMap)
  : Sink (Blob + JsThrown) :=
  do_ onLog (lit "Initializing DOCX engine...") LInfo;
  do sections <- convertTokens images (marked_lexer markdown);
  do_ onLog (lit "Finalizing DOCX binary data...") LInfo;
  ret (Packer_toBlob (mkDocument sections)).

End WithLibraries.

(** Sum of the line breaks requested by a sequence of runs. *)
Definition explicitBreaks (runs : list TextRun) : nat :=
  list_sum (map run_break runs).

End DocxConverter.

(* ================================================================== *)
(** * services/mdConverter: a Word document to markdown *)
(* ================================================================== *)

Module MdConverter.

Definition ArrayBuffer : Type := list byte.

Definition dquote : ascii := ascii_of_nat 34.
Definition backslash : ascii := ascii_of_nat 92.

(** [options.styleMap]. *)
Definition styleMap : list jsstring :=
  [ lit "p[style-name='Code'] => pre > code:fresh";
    lit "p[style-name='Source Code'] => pre > code:fresh";
    lit "p[style-name='Consolas'] => code";
    lit "r[style-name='Code Text'] => code";
    lit "p[style-name='Heading 1'] => h1:fresh";
    lit "p[style-name='Heading 2'] => h2:fresh";
    lit "p[style-name='Heading 3'] => h3:fresh" ].

(** ** The decoder

    [mammoth.convertToMarkdown] is a library.  What the converter sees of
    one run of it: it calls [options.convertImage] once for each image
    element it meets and goes on with the [src] the callback answers; in
    the end the promise resolves with [result.value] or rejects. *)
Inductive Mammoth : Type :=
| Resolves (value : jsstring)
| Rejects (error : JsThrown)
| ImageElement (resume : jsstring -> Mammoth).

(** [src] of the object the image callback returns. *)
Definition placeholder (id : nat) : jsstring :=
  lit "IMAGE_PATH_PLACEHOLDER_" ++ decimal id.

(** The callback given to [mammoth.images.imgElement].  It closes over the
    local variable [imageCounter], passed in and out here. *)
Definition convertImage (imageCounter : nat) : Sink (jsstring * nat) :=
  let id := imageCounter in
  do_ onLog (lit "Asset detected: Image #" ++ decimal id) LSuccess;
  ret (placeholder id, S imageCounter).

Inductive Outcome : Type :=
| Value (value : jsstring)
| Thrown (error : JsThrown).

(** A finished run of the decoder: how the promise settled, every [src]
    the callback answered (in call order) and the final counter. *)
Record Await : Type := mkAwait {
  outcome : Outcome;
  supplied : list jsstring;
  counter : nat
}.

(** [await mammoth.convertToMarkdown(...)] with [convertImage] as the
    image callback. *)
Fixpoint await (run : Mammoth) (imageCounter : nat) : Sink Await :=
  match run with
  | Resolves value => ret (mkAwait (Value value) [] imageCounter)
  | Rejects error => ret (mkAwait (Thrown error) [] imageCounter)
  | ImageElement resume =>
      do answer <- convertImage imageCounter;
      do rest <- await (resume (fst answer)) (snd answer);
      ret (mkAwait (outcome rest) (fst answer :: supplied rest)
                   (counter rest))
  end.

(** ** The regular expressions of the clean-up *)

(** [/<opening>IMAGE_PATH_PLACEHOLDER_(\d+)<closing>/] at the current
    position, with the replacement [![](images/figure_$1.png)]. *)
Definition figureRef (digits : jsstring) : jsstring :=
  lit "![](images/figure_" ++ digits ++ lit ".png)".

Definition matchPlaceholder (opening closing : jsstring) : Matcher :=
  fun s =>
    match stripPrefix opening s with
    | None => None
    | Some afterOpening =>
        let (digits, afterDigits) := takeDigits afterOpening in
        match digits with
        | [] => None
        | _ :: _ =>
            match stripPrefix closing afterDigits with
            | Some _ =>
                Some (figureRef digits,
                      length opening + length digits + length closing)
            | None => None
            end
        end
    end.

(** The expression of line 40: [src=], a double quote, the placeholder
    with its digits, a double quote. *)
Definition srcAttributeOpening : jsstring :=
  lit "src=" ++ dquote :: lit "IMAGE_PATH_PLACEHOLDER_".
Definition srcAttributeClosing : jsstring := [dquote].
Definition srcAttributeRe : Matcher :=
  matchPlaceholder srcAttributeOpening srcAttributeClosing.

(** The expression of line 41: [![](], the placeholder with its digits,
    [)]. *)
Definition imageSyntaxOpening : jsstring :=
  lit "![](IMAGE_PATH_PLACEHOLDER_".
Definition imageSyntaxClosing : jsstring := lit ")".
Definition imageSyntaxRe : Matcher :=
  matchPlaceholder imageSyntaxOpening imageSyntaxClosing.

(** [/\\(<class>)/g] with the replacement [$1]: a backslash followed by a
    character of the class. *)
Definition matchEscaped (class : ascii -> bool) : Matcher :=
  fun s =>
    match s with
    | b :: c :: _ =>
        if Ascii.eqb b backslash && class c then Some ([c], 2) else None
    | _ => None
    end.

Definition oneOf (chars : jsstring) (c : ascii) : bool :=
  existsb (Ascii.eqb c) chars.

(** The class of the first escape expression: underscore, parentheses,
    square brackets, double quote, single quote. *)
Definition punctuationClass : ascii -> bool :=
  oneOf (lit "_()[]" ++ dquote :: lit "'").
Definition periodClass : ascii -> bool := oneOf (lit ".").
Definition hyphenClass : ascii -> bool := oneOf (lit "-").

(** Step 1 of the clean-up: the two placeholder rewrites, in order. *)
Definition rewritePlaceholders (markdown : jsstring) : jsstring :=
  let markdown := replaceAll srcAttributeRe markdown in
  replaceAll imageSyntaxRe markdown.

(** Step 2 of the clean-up: the three escape removals, in order. *)
Definition escapeCleanup (markdown : jsstring) : jsstring :=
  let markdown := replaceAll (matchEscaped punctuationClass) markdown in
  let markdown := replaceAll (matchEscaped periodClass) markdown in
  replaceAll (matchEscaped hyphenClass) markdown.

Definition postProcess (markdown : jsstring) : jsstring :=
  escapeCleanup (rewritePlaceholders markdown).

(** [error instanceof Error ? error.message : 'Unknown error']. *)
Definition messageOf (error : JsThrown) : jsstring :=
  match error with
  | ErrorObject message => message
  | OtherThrown _ => lit "Unknown error"
  end.

Section WithMammoth.

Variable mammoth_convertToMarkdown : ArrayBuffer -> list jsstring -> Mammoth.

(** The result is the markdown ([inl]) or the value thrown ([inr]). *)
Definition convertDocxToMd (arrayBuffer : ArrayBuffer)
  : Sink (jsstring + JsThrown) :=
  do_ onLog (lit "Analyzing Word structure and identifying assets...")
            LInfo;
  do result <- await (mammoth_convertToMarkdown arrayBuffer styleMap) 1;
  match outcome result with
  | Value value =>
      do_ onLog (lit "Refining document structure...") LInfo;
      let markdown := postProcess value in
      do_ onLog (lit "Base Markdown generated successfully.") LSuccess;
      ret (inl markdown)
  | Thrown error =>
      do_ onLog (lit "Extraction failed: " ++ messageOf error) LError;
      ret (inr error)
  end.

End WithMammoth.

(** The log entry of the [id]-th image. *)
Definition assetEntry (id : nat) : LogEntry :=
  (lit "Asset detected: Image #" ++ decimal id, LSuccess).

(** ** Log entries and results of [convertDocxToMd] *)

Definition analyzingEntry : LogEntry :=
  (lit "Analyzing Word structure and identifying assets...", LInfo).

Definition failedEntry (error : JsThrown) : LogEntry :=
  (lit "Extraction failed: " ++ messageOf error, LError).

(** Entries logged after the decoder has settled. *)
Definition closingEntries (settled : Outcome) : list LogEntry :=
  match settled with
  | Value _ =>
      [(lit "Refining document structure...", LInfo);
       (lit "Base Markdown generated successfully.", LSuccess)]
  | Thrown error => [failedEntry error]
  end.

Definition resultOf (settled : Outcome) : jsstring + JsThrown :=
  match settled with
  | Value value => inl (postProcess value)
  | Thrown error => inr error
  end.

(** ** The two shapes of a placeholder that step 1 looks for *)

(** The attribute [src=] with the quoted placeholder as its value. *)
Definition attributeForm (digits : jsstring) : jsstring :=
  srcAttributeOpening ++ digits ++ srcAttributeClosing.

(** A markdown image with empty alternative text whose target is the
    placeholder. *)
Definition imageForm (digits : jsstring) : jsstring :=
  imageSyntaxOpening ++ digits ++ imageSyntaxClosing.

(** The same two shapes around the [src] that the callback answered. *)
Definition asAttribute (src : jsstring) : jsstring :=
  lit "src=" ++ dquote :: src ++ [dquote].

Definition asImage (src : jsstring) : jsstring :=
  lit "![](" ++ src ++ lit ")".

Definition figurePath1 : jsstring := lit "images/figure_1.png".
Definition placeholderToken : jsstring := lit "IMAGE_PATH_PLACEHOLDER_".

(** ** The clean-up as the specification words it

    A backslash is dropped exactly when the next character is one of
    underscore, parentheses, brackets, double quote, single quote, period
    or hyphen; every other character is kept. *)
Definition escapable : ascii -> bool :=
  oneOf (lit "_()[]" ++ dquote :: lit "'.-").

Definition nextIn (class : ascii -> bool) (rest : jsstring) : bool :=
  match rest with
  | c :: _ => class c
  | [] => false
  end.

Fixpoint dropBackslashBefore (class : ascii -> bool) (s : jsstring)
  : jsstring :=
  match s with
  | [] => []
  | c :: t =>
      if Ascii.eqb c backslash && nextIn class t
      then dropBackslashBefore class t
      else c :: dropBackslashBefore class t
  end.

Definition spec_escapeCleanup (markdown : jsstring) : jsstring :=
  dropBackslashBefore escapable markdown.

End MdConverter.

(* ================================================================== *)
(** * Runs of the decoder *)
(* ================================================================== *)

Module DecoderRuns.
Import MdConverter.

(** The decoder by itself, without the converter: what it does when the
    image elements it meets are answered, in order, with the given [src]
    strings.  It settles after exactly these answers ([Some]), or it
    meets fewer or more image elements than there are answers ([None]). *)
Fixpoint settlesWith (run : Mammoth) (answers : list jsstring)
  : option Outcome :=
  match run, answers with
  | Resolves value, [] => Some (Value value)
  | Rejects error, [] => Some (Thrown error)
  | ImageElement resume, src :: later => settlesWith (resume src) later
  | _, _ => None
  end.

End DecoderRuns.

(* ================================================================== *)
(** * Counting characters *)
(* ================================================================== *)

Module JsCount.

(** Number of occurrences of a character. *)
Definition countChar (c : ascii) (s : jsstring) : nat :=
  length (filter (Ascii.eqb c) s).

End JsCount.
Import JsCount.

(* ================================================================== *)
(** * The earlier variant of the converter *)
(* ================================================================== *)

Module EarlierDocxConverter.
Import DocxConverter.

(** The earlier [convertToDocx] has no [resolveImage]; its image branch
    reads [images.get(fileName) || images.get(subToken.href)]. *)
Definition imageDataOf (images : ImageMap) (href : jsstring)
  : option ArrayBuffer :=
  match map_get images (fileNameOf href) with
  | Some imgData => Some imgData
  | None => map_get images href
  end.

Definition missingImageRun (href : jsstring) : TextRun :=
  mkTextRun
    (Some (newline :: lit "[MISSING IMAGE: " ++ href ++ lit "]" ++ [newline]))
    true false None None (Some (lit "FF0000")) None false None 0.

(** The loop body over [token.tokens]; every branch but the image branch
    reads as in the later variant. *)
Definition convertSubToken (images : ImageMap) (subToken : SubToken)
  : Sink (list ParagraphChild) :=
  match subToken with
  | SubImage href =>
      match imageDataOf images href with
      | Some imgData =>
          do_ onLog (lit "Embedding image: " ++ fileNameOf href) LSuccess;
          ret [CImageRun imgData 500 300]
      | None =>
          do_ onLog (lit "Image not found in local assets: " ++ href)
                    LWarning;
          ret [CTextRun (missingImageRun href)]
      end
  | other => DocxConverter.convertSubToken images other
  end.

(** The loop body over the tokens; only paragraphs with inline children
    reach the image branch. *)
Definition convertToken (images : ImageMap) (token : Token)
  : Sink (list Paragraph) :=
  match token with
  | TParagraph (Some subTokens) text =>
      do children <- forEachPush (convertSubToken images) subTokens;
      ret [bodyParagraph children]
  | other => DocxConverter.convertToken images other
  end.

Definition convertTokens (images : ImageMap) (tokens : list Token)
  : Sink (list Paragraph) :=
  forEachPush (convertToken images) tokens.

End EarlierDocxConverter.

(* ================================================================== *)
(** * What a token stream asks of the converter *)
(* ================================================================== *)

Module TokenStream.
Import DocxConverter.

(** The references of the image children of a token, in order. *)
Definition subTokenRefs (subToken : SubToken) : list jsstring :=
  match subToken with
  | SubImage href => [href]
  | _ => []
  end.

Definition tokenRefs (token : Token) : list jsstring :=
  match token with
  | TParagraph (Some subTokens) _ => flat_map subTokenRefs subTokens
  | _ => []
  end.

Definition imageRefs (tokens : list Token) : list jsstring :=
  flat_map tokenRefs tokens.

(** The log entry of one image reference. *)
Definition imageEntry (images : ImageMap) (href : jsstring) : LogEntry :=
  match resolveImage images href with
  | Some _ => (lit "Matched asset: " ++ href, LSuccess)
  | None => (lit "Image link broken or missing: " ++ href, LWarning)
  end.

(** Inline tokens of a type the loop knows. *)
Definition knownSubToken (subToken : SubToken) : bool :=
  match subToken with
  | SubOther => false
  | _ => true
  end.

(** Number of paragraphs a token contributes. *)
Definition blockCount (token : Token) : nat :=
  match token with
  | TList items => length items
  | TOther (Some (_ :: _)) => 1
  | TOther _ => 0
  | _ => 1
  end.

Definition initializingEntry : LogEntry :=
  (lit "Initializing DOCX engine...", LInfo).

Definition finalizingEntry : LogEntry :=
  (lit "Finalizing DOCX binary data...", LInfo).

End TokenStream.

(* ================================================================== *)
(** * services/aiService: the polisher *)
(* ================================================================== *)

Module AiService.

(** What [console.error] has been called with: a label and the value. *)
Definition Console : Type := list (jsstring * JsThrown).

Definition modelName : jsstring := lit "gemini-3-flash-preview".

(** The template literal passed as [contents]. *)
Definition contentsFor (content : jsstring) : jsstring :=
  let nl := ascii_of_nat 10 in
  lit "You are a professional technical writer. "
    ++ nl :: lit "      Please fix any formatting issues in the following Markdown content. "
    ++ nl :: lit "      Ensure headers are consistent, fix broken lists, and sanitize syntax without changing the actual meaning of the text."
    ++ nl :: lit "      Return ONLY the fixed Markdown content."
    ++ nl :: lit "      "
    ++ nl :: lit "      Content:"
    ++ nl :: lit "      " ++ content.

Section WithGenAI.

(** [ai.models.generateContent({ model, contents })] is a library call on
    a remote service: it answers with a response whose [text] is a string
    or [undefined], or it throws. *)
Variable generateContent : jsstring -> jsstring -> option jsstring + JsThrown.

(** [response.text || content] on success; the [catch] block logs to the
    console and returns [content]. *)
Definition polishMarkdown (content : jsstring) (console : Console)
  : jsstring * Console :=
  match generateContent modelName (contentsFor content) with
  | inl (Some (c :: text)) => (c :: text, console)
  | inl _ => (content, console)
  | inr error => (content, console ++ [(lit "AI Polishing failed:", error)])
  end.

End WithGenAI.

End AiService.

(* ================================================================== *)
(** * The application: state and the conversion pipeline *)
(* ================================================================== *)

Module App.
Import DocxConverter MdConverter AiService.

Inductive ConversionStatus : Type :=
| IDLE | READING | PARSING | GENERATING | COMPLETED | ERROR.

Inductive ConversionMode : Type := MD_TO_DOCX | DOCX_TO_MD.

Record File : Type := mkFile {
  name : jsstring;
  webkitRelativePath : jsstring
}.

Record FileData : Type := mkFileData {
  file : File;
  content : option jsstring;
  dataUrl : option jsstring;
  arrayBuffer : option ArrayBuffer
}.

(** [Map<string, FileData>], entries in insertion order. *)
Definition FileMap : Type := list (jsstring * FileData).

Fixpoint fileMap_set (images : FileMap) (key : jsstring) (val : FileData)
  : FileMap :=
  match images with
  | [] => [(key, val)]
  | (k, v) :: rest =>
      if str_eqb k key then (k, val) :: rest
      else (k, v) :: fileMap_set rest key val
  end.

Fixpoint fileMap_get (images : FileMap) (key : jsstring) : option FileData :=
  match images with
  | [] => None
  | (k, v) :: rest => if str_eqb k key then Some v else fileMap_get rest key
  end.

(** [name.split('.')[0]]. *)
Definition stemOf (fileName : jsstring) : jsstring :=
  hd [] (split "."%char fileName).

(** The loop [images.forEach((val, key) => { if (val.arrayBuffer)
    imgBuffers.set(key, val.arrayBuffer); })] on a fresh map. *)
Definition imgBuffersOf (images : FileMap) : ImageMap :=
  fold_left
    (fun imgBuffers entry =>
       match arrayBuffer (snd entry) with
       | Some buffer => map_set imgBuffers (fst entry) buffer
       | None => imgBuffers
       end)
    images [].

(** [file.webkitRelativePath || file.name]. *)
Definition pathKeyOf (f : File) : jsstring :=
  match webkitRelativePath f with
  | [] => name f
  | path => path
  end.

Section WithLibraries.

Variable Blob : Type.
Variable marked_lexer : jsstring -> list Token.
Variable Packer_toBlob : Document -> Blob + JsThrown.
Variable mammoth_convertToMarkdown : ArrayBuffer -> list jsstring -> Mammoth.
Variable generateContent : jsstring -> jsstring -> option jsstring + JsThrown.

(** What [downloadFile] is given: the packed document, or
    [new Blob([markdown], { type: 'text/markdown' })]. *)
Inductive Download : Type :=
| PackedDocument (blob : Blob) (filename : jsstring)
| MarkdownText (markdown : jsstring) (filename : jsstring).

(** The state variables of the component that the pipeline reads or
    writes, the console, and the files handed to the browser.  Log
    entries are kept without their random [id] and their [timestamp]. *)
Record World : Type := mkWorld {
  mode : ConversionMode;
  sourceFile : option FileData;
  images : FileMap;
  logs : Log;
  status : ConversionStatus;
  isAiEnabled : bool;
  lastOutput : option jsstring;
  console : Console;
  downloads : list Download
}.

Definition addLog (message : jsstring) (level : LogLevel) (w : World) : World :=
  mkWorld (mode w) (sourceFile w) (images w) (logs w ++ [(message, level)])
          (status w) (isAiEnabled w) (lastOutput w) (console w)
          (downloads w).

Definition setLogs (l : Log) (w : World) : World :=
  mkWorld (mode w) (sourceFile w) (images w) l (status w) (isAiEnabled w)
          (lastOutput w) (console w) (downloads w).

Definition setStatus (s : ConversionStatus) (w : World) : World :=
  mkWorld (mode w) (sourceFile w) (images w) (logs w) s (isAiEnabled w)
          (lastOutput w) (console w) (downloads w).

Definition setLastOutput (o : option jsstring) (w : World) : World :=
  mkWorld (mode w) (sourceFile w) (images w) (logs w) (status w)
          (isAiEnabled w) o (console w) (downloads w).

Definition setImages (m : FileMap) (w : World) : World :=
  mkWorld (mode w) (sourceFile w) m (logs w) (status w) (isAiEnabled w)
          (lastOutput w) (console w) (downloads w).

Definition setConsole (c : Console) (w : World) : World :=
  mkWorld (mode w) (sourceFile w) (images w) (logs w) (status w)
          (isAiEnabled w) (lastOutput w) c (downloads w).

Definition downloadFile (d : Download) (w : World) : World :=
  mkWorld (mode w) (sourceFile w) (images w) (logs w) (status w)
          (isAiEnabled w) (lastOutput w) (console w) (downloads w ++ [d]).

(** [await polishMarkdown(text)]. *)
Definition polish (text : jsstring) (w : World) : jsstring * World :=
  let (polished, console') := polishMarkdown generateContent text (console w) in
  (polished, setConsole console' w).

(** The branch [mode === ConversionMode.MD_TO_DOCX] of the [try] block:
    the world it leaves and the value thrown, if any. *)
Definition markdownToWord (source : FileData) (aiEnabled : bool)
           (uploaded : FileMap) (w : World) : World * option JsThrown :=
  let content :=
    match content source with
    | Some text => text
    | None => []
    end in
  let (content, w) :=
    if aiEnabled
    then polish content
           (addLog (lit "AI Polishing enabled. Thinking...") LInfo
                   (setStatus PARSING w))
    else (content, w) in
  let w := setStatus GENERATING w in
  let imgBuffers := imgBuffersOf uploaded in
  let (result, logs') :=
    convertToDocx marked_lexer Packer_toBlob content imgBuffers (logs w) in
  let w := setLogs logs' w in
  match result with
  | inl blob =>
      (downloadFile
         (PackedDocument blob (stemOf (name (file source)) ++ lit ".docx"))
         w,
       None)
  | inr error => (w, Some error)
  end.

(** The other branch of the [try] block. *)
Definition wordToMarkdown (source : FileData) (aiEnabled : bool) (w : World)
  : World * option JsThrown :=
  match arrayBuffer source with
  | None => (w, Some (ErrorObject (lit "File buffer missing.")))
  | Some buffer =>
      let w := setStatus GENERATING w in
      let (result, logs') :=
        convertDocxToMd mammoth_convertToMarkdown buffer (logs w) in
      let w := setLogs logs' w in
      match result with
      | inr error => (w, Some error)
      | inl markdown =>
          let (markdown, w) :=
            if aiEnabled
            then polish markdown
                   (addLog (lit "AI Enhancing generated Markdown...") LInfo
                           (setStatus PARSING w))
            else (markdown, w) in
          let w := setLastOutput (Some markdown) w in
          (downloadFile
             (MarkdownText markdown
                           (stemOf (name (file source)) ++ lit ".md"))
             w,
           None)
      end
  end.

Definition initiatingEntry (m : ConversionMode) : LogEntry :=
  (lit "Initiating "
     ++ match m with
        | MD_TO_DOCX => lit "MD to Word"
        | DOCX_TO_MD => lit "Word to MD"
        end
     ++ lit " pipeline...",
   LInfo).

Definition successEntry : LogEntry :=
  (lit "Success: Output generated and downloaded.", LSuccess).

Definition failureEntry (error : JsThrown) : LogEntry :=
  (lit "Failure: " ++ messageOf error, LError).

(** [startConversion]: the world after the promise has settled. *)
Definition startConversion (w : World) : World :=
  match sourceFile w with
  | None => addLog (lit "Source file missing.") LError w
  | Some source =>
      let w1 := setLastOutput None w in
      let w1 := setStatus READING w1 in
      let w1 := addLog (fst (initiatingEntry (mode w)))
                       (snd (initiatingEntry (mode w))) w1 in
      let (w2, thrown) :=
        match mode w with
        | MD_TO_DOCX => markdownToWord source (isAiEnabled w) (images w) w1
        | DOCX_TO_MD => wordToMarkdown source (isAiEnabled w) w1
        end in
      match thrown with
      | None =>
          addLog (fst successEntry) (snd successEntry)
                 (setStatus COMPLETED w2)
      | Some error =>
          addLog (fst (failureEntry error)) (snd (failureEntry error))
                 (setStatus ERROR
                            (setConsole (console w2 ++ [([], error)]) w2))
      end
  end.

(** [reset]. *)
Definition reset (w : World) : World :=
  mkWorld (mode w) None [] [] IDLE (isAiEnabled w) None (console w)
          (downloads w).

(** ** Uploading images

    [handleImageUpload] starts one [FileReader] per file and logs; each
    reader later fires [onload] once.  [count] is the local counter the
    handlers of one upload share. *)
Definition handleImageUpload (files : option (list File)) (w : World) : World :=
  match files with
  | None => w
  | Some fileList =>
      addLog (lit "Scanning " ++ decimal (length fileList) ++ lit " files...")
             LInfo w
  end.

Definition processedEntry (count : nat) : LogEntry :=
  (lit "Successfully processed " ++ decimal count
     ++ lit " assets from the selected location.",
   LSuccess).

(** One [onload] event of the upload of [total] files. *)
Definition onload (total : nat) (f : File) (result : option ArrayBuffer)
           (count : nat) (w : World) : nat * World :=
  let w := setImages
             (fileMap_set (images w) (pathKeyOf f)
                          (mkFileData f None None result)) w in
  let count := S count in
  if Nat.eqb count total
  then (count, addLog (fst (processedEntry count))
                      (snd (processedEntry count)) w)
  else (count, w).

(** The [onload] events of one upload in the order the readers finish. *)
Fixpoint onloads (total : nat) (events : list (File * option ArrayBuffer))
         (count : nat) (w : World) : nat * World :=
  match events with
  | [] => (count, w)
  | (f, result) :: later =>
      let (count, w) := onload total f result count w in
      onloads total later count w
  end.

End WithLibraries.

End App.

(* ================================================================== *)
(** * The optional polishing step of the pipeline *)
(* ================================================================== *)

Module Polishing.
Import AiService.

Section WithGenAI.

Variable generateContent : jsstring -> jsstring -> option jsstring + JsThrown.

(** The text after [if (isAiEnabled) { text = await polishMarkdown(text) }]
    and the console it leaves. *)
Definition polishedText (aiEnabled : bool) (text : jsstring)
           (console : Console) : jsstring :=
  if aiEnabled then fst (polishMarkdown generateContent text console)
  else text.

Definition consoleAfterPolish (aiEnabled : bool) (text : jsstring)
           (console : Console) : Console :=
  if aiEnabled then snd (polishMarkdown generateContent text console)
  else console.

End WithGenAI.

(** The entry [addLog(message, "info")] inside [if (isAiEnabled)]. *)
Definition aiEntries (aiEnabled : bool) (message : jsstring) : list LogEntry :=
  if aiEnabled then [(message, LInfo)] else [].

End Polishing.

(* ================================================================== *)
(** * Sample files, libraries and states *)
(* ================================================================== *)

Module Sample.
Import DocxConverter MdConverter AiService App.

(** A markdown source and a Word source. *)
Definition notesMd : FileData :=
  mkFileData (mkFile (lit "notes.v2.md") []) (Some (lit "# Notes")) None None.

Definition reportDocx : FileData :=
  mkFileData (mkFile (lit "report.docx") []) None None
             (Some [x50%byte; x4b%byte]).

Definition emptyDocx : FileData :=
  mkFileData (mkFile (lit "report.docx") []) None None None.

(** Libraries: a lexer that sees one heading, a packer that packs or
    throws, a decoder that resolves or rejects after one image, a
    service that is out of reach. *)
Definition lexer (markdown : jsstring) : list Token := [THeading 1 markdown].

Definition packs (d : Document) : nat + JsThrown := inl (length (doc_children d)).

Definition packerThrows (d : Document) : nat + JsThrown :=
  inr (ErrorObject (lit "out of memory")).

Definition decodes (buffer : ArrayBuffer) (styles : list jsstring) : Mammoth :=
  ImageElement (fun src => Resolves (asImage src)).

Definition decoderRejects (buffer : ArrayBuffer) (styles : list jsstring)
  : Mammoth :=
  ImageElement (fun _ => Rejects (ErrorObject (lit "Corrupted zip"))).

Definition offline (model contents : jsstring) : option jsstring + JsThrown :=
  inr (OtherThrown (lit "offline")).

Definition idle (m : ConversionMode) (source : option FileData) (ai : bool)
  : World nat :=
  mkWorld m source [] [] IDLE ai None [] [].

(** Two files of a folder upload. *)
Definition figureA : File := mkFile (lit "a.png") (lit "figs/a.png").
Definition figureB : File := mkFile (lit "b.png") [].

(** Decoders of a Word document that holds one picture.  The markdown
    writer of the decoder puts the alternative text of a picture between
    the square brackets and the [src] of the callback between the
    parentheses.  [logoDecoder] writes the [src] as it got it;
    the other two escape its underscores, as the writer does with text.
    The picture of [escapingDecoder] has no alternative text. *)
Definition escapeUnderscores (s : jsstring) : jsstring :=
  flat_map (fun c => if Ascii.eqb c "_"%char then [backslash; c] else [c]) s.

Definition logoDecoder (buffer : ArrayBuffer) (styles : list jsstring)
  : Mammoth :=
  ImageElement (fun src => Resolves (lit "![logo](" ++ src ++ lit ")")).

Definition escapingLogoDecoder (buffer : ArrayBuffer) (styles : list jsstring)
  : Mammoth :=
  ImageElement
    (fun src => Resolves (lit "![logo](" ++ escapeUnderscores src ++ lit ")")).

Definition escapingDecoder (buffer : ArrayBuffer) (styles : list jsstring)
  : Mammoth :=
  ImageElement (fun src => Resolves (asImage (escapeUnderscores src))).

End Sample.

(* ================================================================== *)
(** * Properties of the string operations *)
(* ================================================================== *)

Module JsFacts.

Lemma str_eqb_eq (a b : jsstring) : str_eqb a b = true <-> a = b.
Proof.
  revert b; induction a as [|x a IH]; intros [|y b]; simpl;
    try (split; [discriminate | congruence]); try tauto.
  rewrite andb_true_iff, Ascii.eqb_eq, IH.
  split; [intros [-> ->]; reflexivity | intros H; inversion H; auto].
Qed.

Lemma str_eqb_refl (a : jsstring) : str_eqb a a = true.
Proof. apply str_eqb_eq; reflexivity. Qed.

Lemma startsWith_app (p rest : jsstring) : startsWith (p ++ rest) p = true.
Proof.
  induction p as [|y p IH]; simpl; [reflexivity|].
  now rewrite Ascii.eqb_refl, IH.
Qed.

Lemma startsWith_prefix (s p : jsstring) :
  startsWith s p = true <-> exists rest, s = p ++ rest.
Proof.
  revert s; induction p as [|y p IH]; intros s; simpl.
  - split; [exists s; reflexivity | reflexivity].
  - destruct s as [|x s].
    + split; [discriminate | intros [r H]; discriminate].
    + rewrite andb_true_iff, Ascii.eqb_eq, IH. split.
      * intros [-> [r ->]]. exists r; reflexivity.
      * intros [r H]. inversion H; subst. split; [reflexivity | eauto].
Qed.

(** [endsWith] is the suffix relation. *)
Lemma endsWith_suffix (s x : jsstring) :
  endsWith s x = true <-> exists p, s = p ++ x.
Proof.
  unfold endsWith. rewrite andb_true_iff, Nat.leb_le, str_eqb_eq. split.
  - intros [_ H]. exists (firstn (length s - length x) s).
    rewrite <- (firstn_skipn (length s - length x) s) at 1.
    now rewrite H.
  - intros [p ->]. rewrite length_app. split; [lia|].
    replace (length p + length x - length x) with (length p + 0) by lia.
    rewrite skipn_app, Nat.add_0_r, skipn_all.
    replace (length p - length p) with 0 by lia. reflexivity.
Qed.

Lemma endsWith_app (p x : jsstring) : endsWith (p ++ x) x = true.
Proof. apply endsWith_suffix. exists p; reflexivity. Qed.

Lemma split_nonempty (sep : ascii) (s : jsstring) : split sep s <> [].
Proof.
  induction s as [|c t IH]; simpl; [discriminate|].
  destruct (Ascii.eqb c sep); [discriminate|].
  destruct (split sep t); [contradiction | discriminate].
Qed.

(** Joining the pieces with the separator gives the string back. *)
Lemma join_split (sep : ascii) (s : jsstring) : join sep (split sep s) = s.
Proof.
  induction s as [|c t IH]; simpl; [reflexivity|].
  destruct (Ascii.eqb c sep) eqn:E.
  - apply Ascii.eqb_eq in E; subst c.
    pose proof (split_nonempty sep t) as Hne.
    simpl. destruct (split sep t) as [|p rest]; [contradiction|].
    simpl in *. now rewrite IH.
  - pose proof (split_nonempty sep t) as Hne.
    destruct (split sep t) as [|p rest]; [contradiction|].
    simpl in *. destruct rest; simpl in *; now rewrite <- IH.
Qed.

Lemma mapi_from_length {A B} (f : A -> nat -> B) (i : nat) (xs : list A) :
  length (mapi_from f i xs) = length xs.
Proof.
  revert i; induction xs as [|x xs IH]; intros i; simpl; [reflexivity|].
  now rewrite IH.
Qed.

Lemma mapi_from_map {A B C} (f : A -> nat -> B) (g : B -> C) (h : A -> C)
      (i : nat) (xs : list A) :
  (forall x k, g (f x k) = h x) ->
  map g (mapi_from f i xs) = map h xs.
Proof.
  intros Hgf. revert i; induction xs as [|x xs IH]; intros i; simpl;
    [reflexivity|].
  now rewrite Hgf, IH.
Qed.

Lemma countOcc_app_absent (t a b : jsstring) (c : ascii) :
  ~ In c t -> t <> [] ->
  countOcc t (a ++ c :: b) = countOcc t a + countOcc t b.
Proof.
  intros Hc Hne.
  assert (Hstart : forall a', startsWith (a' ++ c :: b) t = startsWith a' t).
  { clear Hne. revert Hc. generalize t. clear t.
    intros t Hc a'. revert t Hc.
    induction a' as [|x a' IH]; intros t Hc; simpl.
    - destruct t as [|y t]; simpl; [reflexivity|].
      destruct (Ascii.eqb c y) eqn:E; [|reflexivity].
      apply Ascii.eqb_eq in E. subst y. exfalso; apply Hc; now left.
    - destruct t as [|y t]; simpl; [reflexivity|].
      rewrite IH; [reflexivity|]. intros H; apply Hc; now right. }
  induction a as [|x a IH].
  - simpl. specialize (Hstart []). simpl in Hstart. rewrite Hstart.
    destruct t; [congruence | reflexivity].
  - change ((x :: a) ++ c :: b) with (x :: (a ++ c :: b)).
    cbn [countOcc].
    change (x :: (a ++ c :: b)) with ((x :: a) ++ c :: b).
    rewrite Hstart, IH. lia.
Qed.

End JsFacts.
Import JsFacts.

(* ================================================================== *)
(** * Properties of the loops that call [onLog] *)
(* ================================================================== *)

Module LoggingFacts.

Section ForEachPush.

Context {A B : Type} (body : A -> Sink (list B)).

Lemma forEachPush_cons (x : A) (xs : list A) (log : Log) :
  forEachPush body (x :: xs) log =
  (fst (body x log) ++ fst (forEachPush body xs (snd (body x log))),
   snd (forEachPush body xs (snd (body x log)))).
Proof.
  simpl. unfold bind, ret.
  destruct (body x log) as [ys l1]; simpl.
  destruct (forEachPush body xs l1) as [zs l2]; reflexivity.
Qed.

(** The loop over [xs ++ ys] is the loop over [xs], then the loop over
    [ys] on the log the first one leaves. *)
Lemma forEachPush_app (xs ys : list A) (log : Log) :
  forEachPush body (xs ++ ys) log =
  (fst (forEachPush body xs log)
     ++ fst (forEachPush body ys (snd (forEachPush body xs log))),
   snd (forEachPush body ys (snd (forEachPush body xs log)))).
Proof.
  revert log; induction xs as [|x xs IH]; intros log.
  - simpl. now destruct (forEachPush body ys log).
  - rewrite <- app_comm_cons, !forEachPush_cons, IH; simpl.
    now rewrite app_assoc.
Qed.

(** Whatever ends up in the array was pushed by some iteration. *)
Lemma forEachPush_In (xs : list A) (log : Log) (y : B) :
  In y (fst (forEachPush body xs log)) ->
  exists x log', In x xs /\ In y (fst (body x log')).
Proof.
  revert log; induction xs as [|x xs IH]; intros log.
  - simpl; contradiction.
  - rewrite forEachPush_cons; simpl. rewrite in_app_iff.
    intros [H|H].
    + exists x, log; auto.
    + destruct (IH _ H) as (x' & log' & Hx & Hy).
      exists x', log'; auto.
Qed.

End ForEachPush.

End LoggingFacts.
Import LoggingFacts.

(* ================================================================== *)
(** * The asset resolver *)
(* ================================================================== *)

Module ResolverProofs.
Import DocxConverter.

Lemma map_has_In (images : ImageMap) (key : jsstring) :
  map_has images key = true <-> In key (map fst images).
Proof.
  unfold map_has. induction images as [|[k v] rest IH]; simpl.
  - split; [discriminate | contradiction].
  - destruct (str_eqb k key) eqn:E.
    + apply str_eqb_eq in E. split; auto.
    + rewrite IH. split; [auto | intros [H|H]; [|exact H]].
      subst k. now rewrite str_eqb_refl in E.
Qed.

Lemma map_has_get (images : ImageMap) (key : jsstring) :
  map_has images key = true -> exists d, map_get images key = Some d.
Proof.
  unfold map_has. destruct (map_get images key) as [d|]; [eauto | discriminate].
Qed.

Lemma map_has_false (images : ImageMap) (key : jsstring) :
  ~ In key (map fst images) -> map_has images key = false.
Proof.
  intros H. destruct (map_has images key) eqn:E; [|reflexivity].
  apply map_has_In in E. contradiction.
Qed.

(** [images.set] and [images.get] behave as on a JavaScript map. *)
Lemma map_get_set_same (images : ImageMap) (key : jsstring)
      (val : ArrayBuffer) :
  map_get (map_set images key val) key = Some val.
Proof.
  induction images as [|[k v] rest IH]; simpl.
  - now rewrite str_eqb_refl.
  - destruct (str_eqb k key) eqn:E; simpl; now rewrite E.
Qed.

Lemma map_get_set_other (images : ImageMap) (key key' : jsstring)
      (val : ArrayBuffer) :
  key <> key' ->
  map_get (map_set images key val) key' = map_get images key'.
Proof.
  intros Hne. induction images as [|[k v] rest IH]; simpl.
  - destruct (str_eqb key key') eqn:E; [|reflexivity].
    apply str_eqb_eq in E. contradiction.
  - destruct (str_eqb k key) eqn:E; simpl.
    + apply str_eqb_eq in E. subst k.
      destruct (str_eqb key key') eqn:E'; [|reflexivity].
      apply str_eqb_eq in E'. contradiction.
    + now rewrite IH.
Qed.

Lemma map_set_keys (images : ImageMap) (key : jsstring) (val : ArrayBuffer) :
  map fst (map_set images key val)
  = if map_has images key then map fst images
    else map fst images ++ [key].
Proof.
  unfold map_has. induction images as [|[k v] rest IH]; simpl;
    [reflexivity|].
  destruct (str_eqb k key) eqn:E; simpl; [reflexivity|].
  rewrite IH. now destruct (map_get rest key).
Qed.

(** Building a map with [set] keeps every key once. *)
Lemma map_set_wf (images : ImageMap) (key : jsstring) (val : ArrayBuffer) :
  map_wf images -> map_wf (map_set images key val).
Proof.
  unfold map_wf. intros Hwf. rewrite map_set_keys.
  destruct (map_has images key) eqn:E; [exact Hwf|].
  apply NoDup_app; [exact Hwf | repeat constructor; auto |].
  intros x Hx [<-|[]].
  apply map_has_In in Hx. congruence.
Qed.

(** The labelled resolver returns the payload of [resolveImage]. *)
Lemma resolveImageVia_payload (images : ImageMap) (href : jsstring) :
  option_map snd (resolveImageVia images href) = resolveImage images href.
Proof.
  unfold resolveImageVia, resolveImage.
  repeat match goal with
         | |- context [if ?b then _ else _] => destruct b
         end;
    match goal with
    | |- context [option_map _ ?o] => destruct o; reflexivity
    end.
Qed.

(** The scan returns the payload of the first entry, in iteration order,
    whose key passes the test. *)
Lemma deepSearch_first (images : ImageMap) (href normalized : jsstring)
      (d : ArrayBuffer) :
  deepSearch images href normalized = Some d <->
  exists before key after,
    images = before ++ (key, d) :: after
    /\ deepMatch href normalized key = true
    /\ Forall (fun e => deepMatch href normalized (fst e) = false) before.
Proof.
  unfold deepMatch. induction images as [|[k v] rest IH]; simpl.
  - split; [discriminate|].
    intros (b & key & a & H & _). destruct b; discriminate.
  - destruct (endsWith k href || endsWith k normalized) eqn:E.
    + split.
      * intros H; inversion H; subst. exists [], k, rest. auto.
      * intros ([|[k' v'] b] & key & a & H & Hk & Hb).
        -- inversion H; subst. reflexivity.
        -- inversion H; subst. inversion Hb; subst. simpl in *. congruence.
    + rewrite IH. split.
      * intros (b & key & a & -> & Hk & Hb).
        exists ((k, v) :: b), key, a. repeat split; auto.
      * intros ([|[k' v'] b] & key & a & H & Hk & Hb).
        -- inversion H; subst. congruence.
        -- inversion H; subst. inversion Hb; subst. exists b, key, a. auto.
Qed.

Lemma deepSearch_None (images : ImageMap) (href normalized : jsstring) :
  deepSearch images href normalized = None <->
  Forall (fun e => deepMatch href normalized (fst e) = false) images.
Proof.
  unfold deepMatch. induction images as [|[k v] rest IH]; simpl.
  - split; auto.
  - destruct (endsWith k href || endsWith k normalized) eqn:E.
    + split; [discriminate|]. intros H; inversion H; subst.
      simpl in *; congruence.
    + rewrite IH. split; [intros H; constructor; auto|].
      intros H; now inversion H.
Qed.

Lemma deepSearch_finds (images : ImageMap) (href normalized key : jsstring)
      (val : ArrayBuffer) :
  In (key, val) images -> deepMatch href normalized key = true ->
  exists d, deepSearch images href normalized = Some d.
Proof.
  intros Hin Hm.
  destruct (deepSearch images href normalized) as [d|] eqn:E; [eauto|].
  apply deepSearch_None in E. rewrite Forall_forall in E.
  specialize (E _ Hin). simpl in E. congruence.
Qed.

(** Whenever the scan would succeed, the resolver succeeds. *)
Lemma resolveImage_of_deepSearch (images : ImageMap) (href : jsstring)
      (d : ArrayBuffer) :
  deepSearch images href (normalizeHref href) = Some d ->
  exists d', resolveImage images href = Some d'.
Proof.
  intros H. unfold resolveImage.
  destruct (map_has images href) eqn:E1; [now apply map_has_get|].
  destruct (map_has images (normalizeHref href)) eqn:E2;
    [now apply map_has_get|].
  destruct (map_has images (fileNameOf href)) eqn:E3;
    [now apply map_has_get|].
  eauto.
Qed.

(** The resolver answers [undefined] exactly when all four steps fail. *)
Lemma resolveImage_None (images : ImageMap) (href : jsstring) :
  resolveImage images href = None <->
  ~ In href (map fst images)
  /\ ~ In (normalizeHref href) (map fst images)
  /\ ~ In (fileNameOf href) (map fst images)
  /\ deepSearch images href (normalizeHref href) = None.
Proof.
  unfold resolveImage. split.
  - destruct (map_has images href) eqn:E1.
    { destruct (map_has_get _ _ E1) as [d ->]; discriminate. }
    destruct (map_has images (normalizeHref href)) eqn:E2.
    { destruct (map_has_get _ _ E2) as [d ->]; discriminate. }
    destruct (map_has images (fileNameOf href)) eqn:E3.
    { destruct (map_has_get _ _ E3) as [d ->]; discriminate. }
    intros H. repeat split; try exact H;
      intros Hin; apply map_has_In in Hin; congruence.
  - intros (H1 & H2 & H3 & H4).
    now rewrite (map_has_false _ _ H1), (map_has_false _ _ H2),
      (map_has_false _ _ H3).
Qed.

(** C1, with its example put right.  When the keys of the map satisfy several of the four
    steps at once, [resolveImage] answers with the payload of the earliest
    one: the key equal to [href]; else the key equal to [href] without one
    leading [./] or [/]; else the key equal to the part of [href] behind
    its last [/]; else the scan for a key that ends with [href] or its
    normalized form.  For [photo.png] and the single key
    [assets/2023/photo.png] the first three steps find nothing (no key
    equals the file name [photo.png]); it is the scan that answers. *)
Theorem resolveImage_precedence (images : ImageMap) (href : jsstring) :
  let keys := map fst images in
  let normalized := normalizeHref href in
  let fileName := fileNameOf href in
  (In href keys ->
   exists d, map_get images href = Some d
             /\ resolveImageVia images href = Some (ExactMatch, d))
  /\ (~ In href keys -> In normalized keys ->
      exists d, map_get images normalized = Some d
                /\ resolveImageVia images href = Some (NormalizedPath, d))
  /\ (~ In href keys -> ~ In normalized keys -> In fileName keys ->
      exists d, map_get images fileName = Some d
                /\ resolveImageVia images href = Some (FileNameOnly, d))
  /\ (~ In href keys -> ~ In normalized keys -> ~ In fileName keys ->
      resolveImageVia images href =
      option_map (pair DeepSearch) (deepSearch images href normalized))
  /\ option_map snd (resolveImageVia images href) = resolveImage images href
  /\ (forall bytes : ArrayBuffer,
        resolveImageVia [(lit "assets/2023/photo.png", bytes)]
                        (lit "photo.png")
        = Some (DeepSearch, bytes)).
Proof.
  cbv zeta. split; [|split; [|split; [|split; [|split]]]].
  - intros H. apply map_has_In in H.
    destruct (map_has_get _ _ H) as [d Hd]. exists d; split; [exact Hd|].
    unfold resolveImageVia. now rewrite H, Hd.
  - intros H1 H2. apply map_has_false in H1. apply map_has_In in H2.
    destruct (map_has_get _ _ H2) as [d Hd]. exists d; split; [exact Hd|].
    unfold resolveImageVia. now rewrite H1, H2, Hd.
  - intros H1 H2 H3. apply map_has_false in H1, H2. apply map_has_In in H3.
    destruct (map_has_get _ _ H3) as [d Hd]. exists d; split; [exact Hd|].
    unfold resolveImageVia. now rewrite H1, H2, H3, Hd.
  - intros H1 H2 H3. apply map_has_false in H1, H2, H3.
    unfold resolveImageVia. now rewrite H1, H2, H3.
  - apply resolveImageVia_payload.
  - intros bytes. reflexivity.
Qed.

(** Four keys that satisfy the four steps for [./img/a.png]; dropping the
    earlier ones hands the answer to the next step. *)
Lemma resolveImage_precedence_witness :
  let href := lit "./img/a.png" in
  let e1 := (lit "./img/a.png", [x01%byte]) in
  let e2 := (lit "img/a.png", [x02%byte]) in
  let e3 := (lit "a.png", [x03%byte]) in
  let e4 := (lit "backup/img/a.png", [x04%byte]) in
  (exists d, map_get [e4; e3; e2; e1] href = Some d
             /\ resolveImageVia [e4; e3; e2; e1] href = Some (ExactMatch, d))
  /\ (exists d, map_get [e4; e3; e2] (normalizeHref href) = Some d
                /\ resolveImageVia [e4; e3; e2] href
                   = Some (NormalizedPath, d))
  /\ (exists d, map_get [e4; e3] (fileNameOf href) = Some d
                /\ resolveImageVia [e4; e3] href = Some (FileNameOnly, d))
  /\ resolveImageVia [e4] href
     = option_map (pair DeepSearch)
                  (deepSearch [e4] href (normalizeHref href)).
Proof.
  cbv zeta. split; [|split; [|split]].
  - apply (proj1 (resolveImage_precedence _ _)).
    vm_compute; tauto.
  - apply (proj1 (proj2 (resolveImage_precedence _ _)));
      vm_compute; intuition discriminate.
  - apply (proj1 (proj2 (proj2 (resolveImage_precedence _ _))));
      vm_compute; intuition discriminate.
  - apply (proj1 (proj2 (proj2 (proj2 (resolveImage_precedence _ _)))));
      vm_compute; intuition discriminate.
Defined.

(** The second scenario of the specification names the wrong step: for
    [photo.png] and the key [assets/2023/photo.png] the file-name step
    finds no key, and the payload comes from the scan. *)
Lemma photo_png_is_resolved_by_the_scan :
  map_has [(lit "assets/2023/photo.png", [x89%byte; x50%byte])]
          (fileNameOf (lit "photo.png")) = false
  /\ resolveImageVia [(lit "assets/2023/photo.png", [x89%byte; x50%byte])]
                     (lit "photo.png")
     <> Some (FileNameOnly, [x89%byte; x50%byte])
  /\ resolveImageVia [(lit "assets/2023/photo.png", [x89%byte; x50%byte])]
                     (lit "photo.png")
     = Some (DeepSearch, [x89%byte; x50%byte]).
Proof.
  split; [reflexivity | split; [discriminate | reflexivity]].
Qed.

(** C3.  The scan of step 4 succeeds on any key of the map that ends with
    [href] or with [href] stripped of one leading [./] or [/]: it, and
    with it the resolver, returns a payload, namely that of the first such
    key in iteration order; and it fails only if no key is of that
    kind. *)
Theorem deepSearch_succeeds_on_suffix_keys
        (images : ImageMap) (href key : jsstring) (val : ArrayBuffer) :
  In (key, val) images ->
  (exists p, key = p ++ href) \/ (exists p, key = p ++ normalizeHref href) ->
  (exists d before key' after,
      deepSearch images href (normalizeHref href) = Some d
      /\ images = before ++ (key', d) :: after
      /\ ((exists p, key' = p ++ href)
          \/ (exists p, key' = p ++ normalizeHref href))
      /\ Forall (fun e => ~ (exists p, fst e = p ++ href)
                          /\ ~ (exists p, fst e = p ++ normalizeHref href))
                before)
  /\ (exists d, resolveImage images href = Some d)
  /\ deepSearch [(key, val)] href (normalizeHref href) = Some val.
Proof.
  intros Hin Hsuf.
  assert (Hm : deepMatch href (normalizeHref href) key = true).
  { unfold deepMatch. apply orb_true_iff.
    destruct Hsuf as [H|H]; [left | right]; now apply endsWith_suffix. }
  destruct (deepSearch_finds _ _ _ _ _ Hin Hm) as [d Hd].
  split; [|split].
  - destruct (proj1 (deepSearch_first _ _ _ _) Hd)
      as (before & key' & after & Himg & Hk & Hb).
    exists d, before, key', after. repeat split; auto.
    + unfold deepMatch in Hk. apply orb_true_iff in Hk.
      destruct Hk as [H|H]; [left | right]; now apply endsWith_suffix.
    + eapply Forall_impl; [|exact Hb]. intros e He.
      unfold deepMatch in He. apply orb_false_iff in He.
      destruct He as [H1 H2].
      split; intros H; apply (proj2 (endsWith_suffix _ _)) in H.
      * pose proof (eq_trans (eq_sym H) H1); discriminate.
      * pose proof (eq_trans (eq_sym H) H2); discriminate.
  - eapply resolveImage_of_deepSearch; eauto.
  - simpl. unfold deepMatch in Hm. now rewrite Hm.
Qed.

Lemma deepSearch_succeeds_on_suffix_keys_witness :
  exists d, resolveImage [(lit "docs/logo.svg", [x00%byte]);
                          (lit "assets/2023/photo.png", [x01%byte])]
                         (lit "./2023/photo.png") = Some d.
Proof.
  apply (@deepSearch_succeeds_on_suffix_keys
           [(lit "docs/logo.svg", [x00%byte]);
            (lit "assets/2023/photo.png", [x01%byte])]
           (lit "./2023/photo.png")
           (lit "assets/2023/photo.png") [x01%byte]).
  - simpl; auto.
  - right. exists (lit "assets/"). reflexivity.
Defined.

End ResolverProofs.

(* ================================================================== *)
(** * The markdown compiler *)
(* ================================================================== *)

Module CompilerProofs.
Import DocxConverter.

(** C8.  A heading token of depth above 4 gives the paragraph that depth 4
    gives: the heading level stops at [HEADING_4]. *)
Theorem heading_depth_above_4
        (images : ImageMap) (depth : Z) (text : jsstring) (log : Log) :
  (depth > 4)%Z ->
  headingOf depth = HEADING_4
  /\ headingOf depth = headingOf 4
  /\ convertToken images (THeading depth text) log
     = convertToken images (THeading 4 text) log
  /\ exists p, fst (convertToken images (THeading depth text) log) = [p]
               /\ p_heading p = Some HEADING_4 /\ p_text p = Some text.
Proof.
  intros Hd.
  assert (H : headingOf depth = HEADING_4).
  { unfold headingOf.
    destruct (Z.eqb_spec depth 1); [lia|].
    destruct (Z.eqb_spec depth 2); [lia|].
    destruct (Z.eqb_spec depth 3); [lia|]. reflexivity. }
  split; [exact H | split; [rewrite H; reflexivity | split]].
  - simpl. unfold ret. now rewrite H.
  - simpl. rewrite H. eexists; split; [reflexivity | split; reflexivity].
Qed.

Lemma heading_depth_above_4_witness :
  headingOf 6 = HEADING_4
  /\ headingOf 6 = headingOf 4
  /\ convertToken [] (THeading 6 (lit "Notes")) []
     = convertToken [] (THeading 4 (lit "Notes")) []
  /\ exists p, fst (convertToken [] (THeading 6 (lit "Notes")) []) = [p]
               /\ p_heading p = Some HEADING_4
               /\ p_text p = Some (lit "Notes").
Proof.
  apply (heading_depth_above_4 [] (lit "Notes") []). lia.
Defined.

(** Only the image branch of [convertSubToken] pushes an image run, and it
    does so with the payload the resolver returned. *)
Lemma convertSubToken_image (images : ImageMap) (subToken : SubToken)
      (log : Log) (data : ArrayBuffer) (w h : Z) :
  In (CImageRun data w h) (fst (convertSubToken images subToken log)) ->
  exists href, subToken = SubImage href
               /\ resolveImage images href = Some data
               /\ w = 500%Z /\ h = 300%Z.
Proof.
  destruct subToken as [href| | | | | | |]; simpl;
    try (intros [H|[]]; discriminate); try contradiction.
  destruct (resolveImage images href) as [d|] eqn:E; simpl.
  - intros [H|[]]. inversion H; subst. exists href; auto.
  - intros [H|[]]; discriminate.
Qed.

(** Image runs of a compiled document come from image tokens that were
    resolved. *)
Lemma convertTokens_image (images : ImageMap) (tokens : list Token)
      (log : Log) (p : Paragraph) (data : ArrayBuffer) (w h : Z) :
  In p (fst (convertTokens images tokens log)) ->
  In (CImageRun data w h) (p_children p) ->
  exists subTokens text href,
    In (TParagraph (Some subTokens) text) tokens
    /\ In (SubImage href) subTokens
    /\ resolveImage images href = Some data
    /\ w = 500%Z /\ h = 300%Z.
Proof.
  unfold convertTokens. intros Hp Hc.
  destruct (forEachPush_In _ _ _ _ Hp) as (token & log' & Htok & Hin).
  destruct token as [depth text|[subs|] text|items|text| |[[|c t]|]];
    simpl in Hin.
  - destruct Hin as [<-|[]]. contradiction.
  - unfold bind, ret in Hin.
    destruct (forEachPush (convertSubToken images) subs log')
      as [children l2] eqn:E.
    simpl in Hin. destruct Hin as [<-|[]]. simpl in Hc.
    assert (Hc' : In (CImageRun data w h)
                     (fst (forEachPush (convertSubToken images) subs log')))
      by now rewrite E.
    destruct (forEachPush_In _ _ _ _ Hc') as (sub & l3 & Hsub & Hrun).
    destruct (convertSubToken_image _ _ _ _ _ _ Hrun)
      as (href & -> & Hres & -> & ->).
    exists subs, text, href. auto.
  - destruct Hin as [<-|[]]. simpl in Hc.
    destruct Hc as [H|[]]; discriminate.
  - apply in_map_iff in Hin. destruct Hin as (item & <- & _). contradiction.
  - destruct Hin as [<-|[]]. simpl in Hc.
    apply in_map_iff in Hc. destruct Hc as (r & H & _); discriminate.
  - destruct Hin as [<-|[]]. contradiction.
  - contradiction.
  - destruct Hin as [<-|[]]. contradiction.
  - contradiction.
Qed.

(** A paragraph token with inline children: one paragraph holding what
    the loop over the children pushed. *)
Lemma convertToken_paragraph (images : ImageMap) (subTokens : list SubToken)
      (text : jsstring) (log : Log) :
  convertToken images (TParagraph (Some subTokens) text) log
  = ([bodyParagraph
        (fst (forEachPush (convertSubToken images) subTokens log))],
     snd (forEachPush (convertSubToken images) subTokens log)).
Proof.
  simpl. unfold bind, ret.
  now destruct (forEachPush (convertSubToken images) subTokens log).
Qed.

(** C10.  An image reference that resolves is turned into an image run
    carrying the resolved payload with width 500 and height 300, whatever
    the payload is; and no image run of a compiled document has another
    size. *)
Theorem resolved_image_is_500_by_300
        (images : ImageMap) (href : jsstring) (data : ArrayBuffer) :
  resolveImage images href = Some data ->
  (forall log,
      convertSubToken images (SubImage href) log
      = ([CImageRun data 500 300],
         log ++ [(lit "Matched asset: " ++ href, LSuccess)]))
  /\ (forall tokens log p data' w h,
         In p (fst (convertTokens images tokens log)) ->
         In (CImageRun data' w h) (p_children p) ->
         w = 500%Z /\ h = 300%Z).
Proof.
  intros Hres. split.
  - intros log. simpl. now rewrite Hres.
  - intros tokens log p data' w h Hp Hc.
    destruct (convertTokens_image _ _ _ _ _ _ _ Hp Hc)
      as (_ & _ & _ & _ & _ & _ & Hw & Hh). auto.
Qed.

Lemma resolved_image_is_500_by_300_witness :
  convertSubToken [(lit "img/a.png", [x89%byte; x50%byte])]
                  (SubImage (lit "./img/a.png")) []
  = ([CImageRun [x89%byte; x50%byte] 500 300],
     [] ++ [(lit "Matched asset: " ++ lit "./img/a.png", LSuccess)]).
Proof.
  apply (@resolved_image_is_500_by_300
           [(lit "img/a.png", [x89%byte; x50%byte])]
           (lit "./img/a.png") [x89%byte; x50%byte]).
  reflexivity.
Defined.

(** C2.  An image child whose reference fails all four steps is replaced
    by a bold red text run whose text contains the reference; a warning
    is logged; the children after it, and the tokens after the paragraph,
    are compiled as usual.  The compiler is a total function: nothing is
    thrown.  An image run appears only for a reference that was resolved,
    with the resolved payload. *)
Theorem unresolved_image_gives_marker
        (images : ImageMap) (href : jsstring) :
  resolveImage images href = None ->
  let warning :=
    (lit "Image link broken or missing: " ++ href, LWarning) in
  (forall log,
      convertSubToken images (SubImage href) log
      = ([CTextRun (notLoadedRun href)], log ++ [warning]))
  /\ (exists text, run_text (notLoadedRun href) = Some text
                   /\ Substring href text)
  /\ run_bold (notLoadedRun href) = true
  /\ run_color (notLoadedRun href) = Some (lit "FF0000")
  /\ (forall before pre post text after log,
         let r1 := convertTokens images before log in
         let r2 := forEachPush (convertSubToken images) pre (snd r1) in
         let r3 := forEachPush (convertSubToken images) post
                               (snd r2 ++ [warning]) in
         let r4 := convertTokens images after (snd r3) in
         convertTokens images
           (before
              ++ TParagraph (Some (pre ++ SubImage href :: post)) text
              :: after) log
         = (fst r1
              ++ bodyParagraph
                   (fst r2 ++ CTextRun (notLoadedRun href) :: fst r3)
              :: fst r4,
            snd r4))
  /\ (forall tokens log p data w h,
         In p (fst (convertTokens images tokens log)) ->
         In (CImageRun data w h) (p_children p) ->
         exists subTokens text href',
           In (TParagraph (Some subTokens) text) tokens
           /\ In (SubImage href') subTokens
           /\ resolveImage images href' = Some data).
Proof.
  intros Hres warning.
  assert (Hsub : forall log,
             convertSubToken images (SubImage href) log
             = ([CTextRun (notLoadedRun href)], log ++ [warning])).
  { intros log. simpl. now rewrite Hres. }
  split; [exact Hsub|].
  split.
  { eexists; split; [reflexivity|].
    exists (newline :: lit "[IMAGE NOT LOADED: "), (lit "]" ++ [newline]).
    reflexivity. }
  split; [reflexivity|]. split; [reflexivity|]. split.
  - intros before pre post text after log r1 r2 r3 r4.
    subst r1 r2 r3 r4. unfold convertTokens.
    rewrite forEachPush_app, forEachPush_cons, convertToken_paragraph.
    rewrite forEachPush_app, forEachPush_cons, Hsub.
    reflexivity.
  - intros tokens log p data w h Hp Hc.
    destruct (convertTokens_image _ _ _ _ _ _ _ Hp Hc)
      as (subs & text & href' & H1 & H2 & H3 & _).
    exists subs, text, href'. auto.
Qed.

Lemma unresolved_image_gives_marker_witness :
  convertSubToken [(lit "img/a.png", [x89%byte])]
                  (SubImage (lit "img/b.png")) []
  = ([CTextRun (notLoadedRun (lit "img/b.png"))],
     [] ++ [(lit "Image link broken or missing: " ++ lit "img/b.png",
             LWarning)]).
Proof.
  apply (@unresolved_image_gives_marker
           [(lit "img/a.png", [x89%byte])] (lit "img/b.png")).
  reflexivity.
Defined.

Lemma codeRun_breaks_after_first (index : nat) (lines : list jsstring) :
  0 < index ->
  map run_break (mapi_from codeRun index lines) = repeat 1 (length lines).
Proof.
  revert index; induction lines as [|l lines IH]; intros index Hi; simpl;
    [reflexivity|].
  rewrite IH by lia.
  destruct (Nat.ltb_spec 0 index); [reflexivity | lia].
Qed.

Lemma list_sum_repeat_1 (n : nat) : list_sum (repeat 1 n) = n.
Proof. induction n; simpl; congruence. Qed.

(** C4.  The text of a code token is split at its line feeds into [k]
    lines ([k] is at least 1, and the lines joined by line feeds are the
    text).  The paragraph gets [k] runs whose texts are the lines in their
    order; the first run asks for no line break and each later run for
    exactly one before its text, [k - 1] breaks in all. *)
Theorem code_block_lines_and_breaks
        (images : ImageMap) (text : jsstring) (log : Log) :
  let lines := split newline text in
  let runs := codeRuns text in
  let k := length lines in
  1 <= k
  /\ join newline lines = text
  /\ length runs = k
  /\ map run_text runs = map Some lines
  /\ map run_break runs = 0 :: repeat 1 (k - 1)
  /\ explicitBreaks runs = k - 1
  /\ exists p, convertToken images (TCode text) log = ([p], log)
               /\ p_children p = map CTextRun runs.
Proof.
  cbv zeta. unfold codeRuns, mapi, explicitBreaks.
  pose proof (split_nonempty newline text) as Hne.
  assert (Hbreaks :
            map run_break (mapi_from codeRun 0 (split newline text))
            = 0 :: repeat 1 (length (split newline text) - 1)).
  { destruct (split newline text) as [|l rest]; [contradiction|].
    simpl. rewrite codeRun_breaks_after_first by lia.
    now rewrite Nat.sub_0_r. }
  split; [destruct (split newline text); [contradiction | simpl; lia]|].
  split; [apply join_split|].
  split; [apply mapi_from_length|].
  split; [apply mapi_from_map; reflexivity|].
  split; [exact Hbreaks|].
  split; [rewrite Hbreaks; simpl; apply list_sum_repeat_1|].
  eexists; split; reflexivity.
Qed.

End CompilerProofs.

(* ================================================================== *)
(** * The extractor: image numbering and failure *)
(* ================================================================== *)

Module ExtractorProofs.
Import MdConverter DecoderRuns.

(** Meeting an image: the callback logs and answers, the decoder goes on
    with the answer. *)
Lemma await_ImageElement (resume : jsstring -> Mammoth) (c : nat) (log : Log) :
  await (ImageElement resume) c log
  = (mkAwait
       (outcome (fst (await (resume (placeholder c)) (S c)
                            (log ++ [assetEntry c]))))
       (placeholder c
          :: supplied (fst (await (resume (placeholder c)) (S c)
                                  (log ++ [assetEntry c]))))
       (counter (fst (await (resume (placeholder c)) (S c)
                            (log ++ [assetEntry c])))),
     snd (await (resume (placeholder c)) (S c) (log ++ [assetEntry c]))).
Proof.
  cbn [await]. unfold convertImage, assetEntry.
  unfold bind at 1. unfold bind at 1. unfold onLog, ret at 1.
  cbn [fst snd]. unfold bind.
  destruct (await (resume (placeholder c)) (S c) _). reflexivity.
Qed.

(** A run of the decoder started with the counter at [c]: the images get
    the numbers [c], [c + 1], ... in the order they are met, each number
    is logged once, and nothing of this depends on the log so far. *)
Lemma await_numbers (run : Mammoth) :
  forall (c : nat) (log : Log),
    let r := fst (await run c log) in
    let n := length (supplied r) in
    supplied r = map placeholder (seq c n)
    /\ snd (await run c log) = log ++ map assetEntry (seq c n)
    /\ counter r = c + n
    /\ r = fst (await run c []).
Proof.
  induction run as [value|error|resume IH]; intros c log; cbv zeta.
  - simpl. rewrite app_nil_r. auto.
  - simpl. rewrite app_nil_r. auto.
  - rewrite !await_ImageElement. cbn [fst snd supplied counter length].
    destruct (IH (placeholder c) (S c) (log ++ [assetEntry c]))
      as (Hs & Hl & Hc & Hi).
    destruct (IH (placeholder c) (S c) ([] ++ [assetEntry c]))
      as (_ & _ & _ & Hi').
    cbv zeta in *.
    split; [|split; [|split]].
    + cbn [seq map]. now rewrite <- Hs.
    + cbn [seq map]. rewrite Hl, <- app_assoc. reflexivity.
    + lia.
    + rewrite Hi, <- Hi'. reflexivity.
Qed.

(** The whole conversion in terms of the decoder's run. *)
Lemma convertDocxToMd_unfold
      (decoder : ArrayBuffer -> list jsstring -> Mammoth)
      (arrayBuffer : ArrayBuffer) (log : Log) :
  let r := fst (await (decoder arrayBuffer styleMap) 1 []) in
  convertDocxToMd decoder arrayBuffer log
  = (resultOf (outcome r),
     log ++ analyzingEntry
         :: map assetEntry (seq 1 (length (supplied r)))
         ++ closingEntries (outcome r)).
Proof.
  cbv zeta. unfold convertDocxToMd.
  unfold bind at 1. unfold onLog at 1. cbv beta iota.
  unfold bind at 1.
  match goal with
  | |- context [await ?run ?c ?l] =>
      destruct (await_numbers run c l) as (_ & Hl & _ & Hi);
      cbv zeta in Hl, Hi;
      destruct (await run c l) as [r l']
  end.
  cbn [fst snd] in *. rewrite <- Hi. subst l'.
  destruct (outcome r) as [value|error]; cbn [resultOf closingEntries];
    unfold bind, onLog, ret, failedEntry, analyzingEntry; cbn [fst snd];
    rewrite <- !app_assoc; reflexivity.
Qed.

(** The converter answers the decoder the way [settlesWith] reads a
    decoder: the answers it gave lead the decoder to the outcome it
    awaited. *)
Lemma await_settles (run : Mammoth) :
  forall (c : nat) (log : Log),
    settlesWith run (supplied (fst (await run c log)))
    = Some (outcome (fst (await run c log))).
Proof.
  induction run as [value|error|resume IH]; intros c log;
    [reflexivity | reflexivity |].
  rewrite await_ImageElement. cbn [fst supplied outcome settlesWith].
  apply IH.
Qed.

(** A decoder answered with consecutive placeholders settles after one
    number of image elements only. *)
Lemma settlesWith_numbers_unique (run : Mammoth) :
  forall (c n n' : nat) (settled settled' : Outcome),
    settlesWith run (map placeholder (seq c n)) = Some settled ->
    settlesWith run (map placeholder (seq c n')) = Some settled' ->
    n = n' /\ settled = settled'.
Proof.
  induction run as [value|error|resume IH];
    intros c n n' settled settled' Hn Hn';
    destruct n as [|m], n' as [|m']; cbn [seq map settlesWith] in Hn, Hn';
    try discriminate.
  - split; [reflexivity | congruence].
  - split; [reflexivity | congruence].
  - destruct (IH (placeholder c) (S c) m m' settled settled' Hn Hn')
      as [-> ->].
    split; reflexivity.
Qed.

(** C6.  In one extraction call the image elements the decoder meets are
    answered with the placeholders of 1, 2, ..., n, one number for each
    element in the order they are met: [n] is the number of image
    elements of the decoder's run under these answers (a decoder that
    meets an image element is never left without its number, and [n] is
    the only number of consecutive placeholders after which the decoder
    settles), and each number is logged once, in the same order, between
    the analysing entry and the closing entries.  The counter belongs to
    the call: whatever was logged before, and so also in a second call on
    the same input after the first, the numbers start at 1 again and the
    result is the same. *)
Theorem placeholder_numbering
        (decoder : ArrayBuffer -> list jsstring -> Mammoth)
        (arrayBuffer : ArrayBuffer) :
  exists (n : nat) (settled : Outcome),
    settlesWith (decoder arrayBuffer styleMap) (map placeholder (seq 1 n))
    = Some settled
    /\ (forall n' settled',
           settlesWith (decoder arrayBuffer styleMap)
                       (map placeholder (seq 1 n'))
           = Some settled' ->
           n' = n /\ settled' = settled)
    /\ (forall resume,
           decoder arrayBuffer styleMap = ImageElement resume ->
           exists m,
             n = S m
             /\ settlesWith (resume (placeholder 1))
                            (map placeholder (seq 2 m))
                = Some settled)
    /\ (forall log,
           supplied (fst (await (decoder arrayBuffer styleMap) 1 log))
           = map placeholder (seq 1 n))
    /\ (forall log,
           snd (await (decoder arrayBuffer styleMap) 1 log)
           = log ++ map assetEntry (seq 1 n))
    /\ (forall log,
           counter (fst (await (decoder arrayBuffer styleMap) 1 log))
           = 1 + n)
    /\ (forall log,
           convertDocxToMd decoder arrayBuffer log
           = (resultOf settled,
              log ++ analyzingEntry :: map assetEntry (seq 1 n)
                  ++ closingEntries settled))
    /\ (forall log,
           let first := convertDocxToMd decoder arrayBuffer log in
           convertDocxToMd decoder arrayBuffer (snd first)
           = (fst first,
              snd first
                ++ analyzingEntry :: map assetEntry (seq 1 n)
                ++ closingEntries settled))
    /\ Forall (fun entry => forall id, entry <> assetEntry id)
              (closingEntries settled).
Proof.
  set (r := fst (await (decoder arrayBuffer styleMap) 1 [])).
  exists (length (supplied r)), (outcome r).
  assert (Hr : forall log,
             fst (await (decoder arrayBuffer styleMap) 1 log) = r).
  { intros log.
    now destruct (await_numbers (decoder arrayBuffer styleMap) 1 log)
      as (_ & _ & _ & H). }
  assert (Hsupplied : supplied r = map placeholder (seq 1 (length (supplied r)))).
  { destruct (await_numbers (decoder arrayBuffer styleMap) 1 [])
      as (H & _). exact H. }
  assert (Hsettles : settlesWith (decoder arrayBuffer styleMap)
                       (map placeholder (seq 1 (length (supplied r))))
                     = Some (outcome r)).
  { rewrite <- Hsupplied. apply await_settles. }
  split; [exact Hsettles|].
  split.
  { intros n' settled' Hn'.
    destruct (settlesWith_numbers_unique _ _ _ _ Hn' Hsettles) as [-> ->].
    split; reflexivity. }
  split.
  { intros resume Hdecoder. rewrite Hdecoder in Hsettles.
    destruct (length (supplied r)) as [|m];
      cbn [seq map settlesWith] in Hsettles; [discriminate|].
    exists m. split; [reflexivity | exact Hsettles]. }
  split; [|split; [|split; [|split; [|split]]]].
  - intros log.
    destruct (await_numbers (decoder arrayBuffer styleMap) 1 log)
      as (H & _). cbv zeta in H. rewrite !Hr in H. rewrite ?Hr. exact H.
  - intros log.
    destruct (await_numbers (decoder arrayBuffer styleMap) 1 log)
      as (_ & H & _). cbv zeta in H. rewrite !Hr in H. rewrite ?Hr. exact H.
  - intros log.
    destruct (await_numbers (decoder arrayBuffer styleMap) 1 log)
      as (_ & _ & H & _). cbv zeta in H. rewrite !Hr in H. rewrite ?Hr. exact H.
  - intros log. apply convertDocxToMd_unfold.
  - intros log. cbv zeta.
    rewrite (convertDocxToMd_unfold decoder arrayBuffer
               (snd (convertDocxToMd decoder arrayBuffer log))).
    now rewrite (convertDocxToMd_unfold decoder arrayBuffer log).
  - destruct (outcome r); simpl; repeat constructor;
      intros id; unfold assetEntry, failedEntry; intros H; inversion H.
Qed.

(** C9.  When the decoder rejects, the conversion logs one entry at error
    level, carrying the message of the error, and throws the very value
    the decoder rejected with; no markdown is returned. *)
Theorem decode_failure_is_rethrown
        (decoder : ArrayBuffer -> list jsstring -> Mammoth)
        (arrayBuffer : ArrayBuffer) (log : Log) (error : JsThrown) :
  outcome (fst (await (decoder arrayBuffer styleMap) 1 log)) = Thrown error ->
  fst (convertDocxToMd decoder arrayBuffer log) = inr error
  /\ (forall markdown,
         fst (convertDocxToMd decoder arrayBuffer log) <> inl markdown)
  /\ (exists earlier,
         snd (convertDocxToMd decoder arrayBuffer log)
         = log ++ earlier ++ [failedEntry error]
         /\ Forall (fun entry => snd entry <> LError) earlier)
  /\ snd (failedEntry error) = LError.
Proof.
  intros Hout.
  destruct (await_numbers (decoder arrayBuffer styleMap) 1 log)
    as (_ & _ & _ & Hi). cbv zeta in Hi.
  rewrite convertDocxToMd_unfold. cbv zeta. rewrite <- Hi, Hout.
  cbn [fst snd resultOf closingEntries].
  split; [reflexivity|]. split; [discriminate|]. split; [|reflexivity].
  eexists (analyzingEntry :: map assetEntry (seq 1 _)).
  split.
  - now rewrite <- app_comm_cons.
  - constructor; [discriminate|].
    apply Forall_forall. intros entry Hin.
    apply in_map_iff in Hin. destruct Hin as (id & <- & _). discriminate.
Qed.

Lemma decode_failure_is_rethrown_witness :
  fst (convertDocxToMd
         (fun _ _ => ImageElement (fun _ =>
                       Rejects (ErrorObject (lit "Corrupted zip"))))
         [x50%byte; x4b%byte] [])
  = inr (ErrorObject (lit "Corrupted zip")).
Proof.
  apply (@decode_failure_is_rethrown
           (fun _ _ => ImageElement (fun _ =>
                         Rejects (ErrorObject (lit "Corrupted zip"))))
           [x50%byte; x4b%byte] [] (ErrorObject (lit "Corrupted zip"))).
  reflexivity.
Defined.

End ExtractorProofs.

(* ================================================================== *)
(** * Properties of global replacement *)
(* ================================================================== *)

Module ReplaceFacts.

Lemma replaceGo_scan (m : Matcher) (c : ascii) (t : jsstring) :
  replaceGo m 0 (c :: t)
  = match m (c :: t) with
    | Some (repl, len) => repl ++ replaceGo m (pred len) t
    | None => c :: replaceGo m 0 t
    end.
Proof. reflexivity. Qed.

Lemma replaceGo_skip (m : Matcher) (k : nat) (c : ascii) (t : jsstring) :
  replaceGo m (S k) (c :: t) = replaceGo m k t.
Proof. reflexivity. Qed.

(** Passing over the rest of a match. *)
Lemma replaceGo_skip_all (m : Matcher) (a b : jsstring) :
  replaceGo m (length a) (a ++ b) = replaceGo m 0 b.
Proof. induction a as [|x a IH]; simpl; [reflexivity | exact IH]. Qed.

(** A match at the front: its replacement, then the scan of what is
    behind the match. *)
Lemma replaceAll_match (m : Matcher) (matched rest repl : jsstring) :
  matched <> [] ->
  m (matched ++ rest) = Some (repl, length matched) ->
  replaceAll m (matched ++ rest) = repl ++ replaceAll m rest.
Proof.
  unfold replaceAll. destruct matched as [|c t]; [congruence|].
  intros _ Hm. rewrite <- app_comm_cons, replaceGo_scan.
  rewrite app_comm_cons, Hm. cbn [length pred].
  now rewrite replaceGo_skip_all.
Qed.

(** Text on which the expression matches nowhere is copied. *)
Lemma replaceAll_copy (m : Matcher) (a b : jsstring) :
  (forall a1 a2, a = a1 ++ a2 -> a2 <> [] -> m (a2 ++ b) = None) ->
  replaceAll m (a ++ b) = a ++ replaceAll m b.
Proof.
  unfold replaceAll. induction a as [|c t IH]; intros Hno; [reflexivity|].
  rewrite <- app_comm_cons, replaceGo_scan, app_comm_cons.
  rewrite (Hno [] (c :: t)) by (reflexivity || discriminate).
  rewrite <- app_comm_cons. f_equal. apply IH.
  intros a1 a2 -> Hne. apply (Hno (c :: a1) a2); [reflexivity | exact Hne].
Qed.

(** If what follows a piece of text never changes the answer of the
    expression inside that piece, the piece is rewritten on its own. *)
Lemma replaceAll_frame (m : Matcher) (a b : jsstring) :
  (forall a1 a2, a = a1 ++ a2 -> a2 <> [] -> m (a2 ++ b) = m a2) ->
  (forall s repl len, m s = Some (repl, len) -> 1 <= len <= length s) ->
  replaceAll m (a ++ b) = replaceAll m a ++ replaceAll m b.
Proof.
  intros Hframe Hlen. unfold replaceAll.
  assert (H : forall a2 k,
             (exists a1, a = a1 ++ a2) ->
             replaceGo m k (a2 ++ b)
             = replaceGo m k a2 ++ replaceGo m (k - length a2) b).
  { induction a2 as [|c t IH]; intros k Hsuf.
    - simpl. now rewrite Nat.sub_0_r.
    - destruct Hsuf as [a1 Ha].
      assert (Hsuf' : exists a1', a = a1' ++ t).
      { exists (a1 ++ [c]). now rewrite <- app_assoc. }
      destruct k as [|k].
      + rewrite <- app_comm_cons, !replaceGo_scan, app_comm_cons.
        rewrite (Hframe a1 (c :: t) Ha) by discriminate.
        destruct (m (c :: t)) as [[repl len]|] eqn:Hm.
        * destruct (Hlen _ _ _ Hm) as [H1 H2]. simpl in H2.
          rewrite (IH _ Hsuf'), <- app_assoc.
          replace (pred len - length t) with 0 by lia. reflexivity.
        * rewrite (IH _ Hsuf'). reflexivity.
      + rewrite <- app_comm_cons, !replaceGo_skip.
        rewrite (IH _ Hsuf'). reflexivity. }
  specialize (H a 0 (ex_intro _ [] eq_refl)). exact H.
Qed.

End ReplaceFacts.
Import ReplaceFacts.

(* ================================================================== *)
(** * The clean-up of escapes *)
(* ================================================================== *)

Module EscapeProofs.
Import MdConverter.

(** One escape expression, replaced globally, drops the backslashes that
    stand before a character of its class and nothing else. *)
Lemma replace_escaped (class : ascii -> bool) :
  class backslash = false ->
  forall s,
    replaceAll (matchEscaped class) s = dropBackslashBefore class s.
Proof.
  intros Hbs s. unfold replaceAll.
  remember (length s) as n eqn:Hn.
  assert (Hle : length s <= n) by lia. clear Hn.
  revert s Hle. induction n as [|n IH]; intros [|c [|d t]] Hle;
    simpl in Hle; try lia; try reflexivity.
  - simpl. now destruct (Ascii.eqb c backslash).
  - rewrite replaceGo_scan.
    change (dropBackslashBefore class (c :: d :: t))
      with (if Ascii.eqb c backslash && class d
            then dropBackslashBefore class (d :: t)
            else c :: dropBackslashBefore class (d :: t)).
    change (matchEscaped class (c :: d :: t))
      with (if Ascii.eqb c backslash && class d
            then Some ([d], 2) else None).
    destruct (Ascii.eqb c backslash && class d) eqn:E.
    + apply andb_true_iff in E. destruct E as [_ Hd].
      assert (Hdb : Ascii.eqb d backslash = false).
      { destruct (Ascii.eqb d backslash) eqn:E'; [|reflexivity].
        apply Ascii.eqb_eq in E'. congruence. }
      cbn [pred app]. rewrite replaceGo_skip.
      cbn [dropBackslashBefore]. rewrite Hdb. cbn [andb]. f_equal.
      apply IH. lia.
    + f_equal. apply IH. simpl. lia.
Qed.

Lemma dropBackslashBefore_ext (c1 c2 : ascii -> bool) :
  (forall x, c1 x = c2 x) ->
  forall s, dropBackslashBefore c1 s = dropBackslashBefore c2 s.
Proof.
  intros Hext. induction s as [|c t IH]; simpl; [reflexivity|].
  assert (Hn : nextIn c1 t = nextIn c2 t) by (destruct t; simpl; auto).
  now rewrite Hn, IH.
Qed.

(** Dropping for one class does not change whether the next character is
    in a class disjoint from it. *)
Lemma nextIn_dropBackslashBefore (c1 c2 : ascii -> bool) :
  c1 backslash = false -> c2 backslash = false ->
  (forall x, c1 x = true -> c2 x = false) ->
  forall t, nextIn c2 (dropBackslashBefore c1 t) = nextIn c2 t.
Proof.
  intros H1 H2 Hdis [|d t]; simpl; [reflexivity|].
  destruct (Ascii.eqb d backslash) eqn:Ed; simpl; [|reflexivity].
  apply Ascii.eqb_eq in Ed. subst d. rewrite H2.
  destruct t as [|e t]; simpl; [exact H2|].
  destruct (c1 e) eqn:Ee; simpl; [|exact H2].
  assert (Heb : Ascii.eqb e backslash = false).
  { destruct (Ascii.eqb e backslash) eqn:E'; [|reflexivity].
    apply Ascii.eqb_eq in E'. congruence. }
  rewrite Heb. simpl. auto.
Qed.

(** Two passes for disjoint classes amount to one pass for their union. *)
Lemma dropBackslashBefore_twice (c1 c2 : ascii -> bool) :
  c1 backslash = false -> c2 backslash = false ->
  (forall x, c1 x = true -> c2 x = false) ->
  forall s,
    dropBackslashBefore c2 (dropBackslashBefore c1 s)
    = dropBackslashBefore (fun x => c1 x || c2 x) s.
Proof.
  intros H1 H2 Hdis. induction s as [|c t IH]; [reflexivity|].
  cbn [dropBackslashBefore].
  assert (Hn : nextIn (fun x => c1 x || c2 x) t = nextIn c1 t || nextIn c2 t)
    by (destruct t; reflexivity).
  rewrite Hn.
  destruct (Ascii.eqb c backslash) eqn:Ec; cbn [andb].
  - destruct (nextIn c1 t) eqn:En1; cbn [orb].
    + exact IH.
    + cbn [dropBackslashBefore]. rewrite Ec. cbn [andb].
      rewrite (nextIn_dropBackslashBefore c1 c2 H1 H2 Hdis), IH. reflexivity.
  - cbn [dropBackslashBefore]. rewrite Ec. cbn [andb]. now rewrite IH.
Qed.

(** The clean-up of the code is the clean-up of the specification. *)
Lemma escapeCleanup_refines (s : jsstring) :
  escapeCleanup s = spec_escapeCleanup s.
Proof.
  unfold escapeCleanup, spec_escapeCleanup.
  rewrite !replace_escaped by reflexivity.
  rewrite dropBackslashBefore_twice;
    [| reflexivity | reflexivity | intros x; each_ascii x; cbv; congruence].
  rewrite dropBackslashBefore_twice;
    [| reflexivity | reflexivity | intros x; each_ascii x; cbv; congruence].
  apply dropBackslashBefore_ext. intros x; each_ascii x; reflexivity.
Qed.

(** C7.  The three escape removals together drop a backslash exactly when
    the character after it is an underscore, a parenthesis, a square
    bracket, a double quote, a single quote, a period or a hyphen, and
    keep every other character: a backslash before one of these goes, a
    backslash before anything else (or at the end) stays, and so does
    every character that is not a backslash. *)
Theorem escape_cleanup_removes_exactly_the_listed_escapes :
  (forall s, escapeCleanup s = spec_escapeCleanup s)
  /\ (forall c, escapable c = true <->
                In c (lit "_()[]" ++ dquote :: lit "'.-"))
  /\ (forall c rest, escapable c = true ->
        escapeCleanup (backslash :: c :: rest) = c :: escapeCleanup rest)
  /\ (forall c rest, escapable c = false ->
        escapeCleanup (backslash :: c :: rest)
        = backslash :: escapeCleanup (c :: rest))
  /\ escapeCleanup [backslash] = [backslash]
  /\ (forall c rest, c <> backslash ->
        escapeCleanup (c :: rest) = c :: escapeCleanup rest)
  /\ escapeCleanup (lit "p" ++ backslash :: lit "_value") = lit "p_value"
  /\ escapeCleanup (lit "print" ++ backslash :: lit "(x" ++ backslash :: lit ")")
     = lit "print(x)"
  /\ escapeCleanup (lit "a" ++ backslash :: lit "nb")
     = lit "a" ++ backslash :: lit "nb".
Proof.
  split; [exact escapeCleanup_refines|].
  split.
  { intros c. unfold escapable, oneOf. rewrite existsb_exists. split.
    - intros (x & Hin & Heq). apply Ascii.eqb_eq in Heq. now subst.
    - intros Hin. exists c. split; [exact Hin | apply Ascii.eqb_refl]. }
  split.
  { intros c rest Hc. rewrite !escapeCleanup_refines.
    unfold spec_escapeCleanup. cbn [dropBackslashBefore nextIn].
    rewrite Hc, Ascii.eqb_refl. cbn [andb].
    assert (Hcb : Ascii.eqb c backslash = false).
    { destruct (Ascii.eqb c backslash) eqn:E; [|reflexivity].
      apply Ascii.eqb_eq in E. subst c. discriminate Hc. }
    now rewrite Hcb. }
  split.
  { intros c rest Hc. rewrite !escapeCleanup_refines.
    unfold spec_escapeCleanup.
    change (dropBackslashBefore escapable (backslash :: c :: rest))
      with (if Ascii.eqb backslash backslash && escapable c
            then dropBackslashBefore escapable (c :: rest)
            else backslash :: dropBackslashBefore escapable (c :: rest)).
    now rewrite Hc, andb_false_r. }
  split; [reflexivity|].
  split.
  { intros c rest Hc. rewrite !escapeCleanup_refines.
    unfold spec_escapeCleanup. cbn [dropBackslashBefore].
    apply Ascii.eqb_neq in Hc. now rewrite Hc. }
  split; [reflexivity|]. split; reflexivity.
Qed.

Lemma escape_cleanup_removes_exactly_the_listed_escapes_witness :
  escapeCleanup (backslash :: "."%char :: lit "png") = "."%char :: escapeCleanup (lit "png")
  /\ escapeCleanup (backslash :: "n"%char :: lit "ext")
     = backslash :: escapeCleanup ("n"%char :: lit "ext")
  /\ escapeCleanup ("x"%char :: [backslash]) = "x"%char :: escapeCleanup [backslash].
Proof.
  pose proof escape_cleanup_removes_exactly_the_listed_escapes
    as (_ & _ & Hdrop & Hkeep & _ & Hother & _).
  split; [|split].
  - apply Hdrop. reflexivity.
  - apply Hkeep. reflexivity.
  - apply Hother. discriminate.
Defined.

End EscapeProofs.

(* ================================================================== *)
(** * The rewriting of placeholders *)
(* ================================================================== *)

Module PlaceholderProofs.
Import MdConverter.

(** ** Literal prefixes and digit runs *)

Lemma stripPrefix_app (p rest : jsstring) : stripPrefix p (p ++ rest) = Some rest.
Proof.
  induction p as [|y p IH]; simpl; [reflexivity|].
  now rewrite Ascii.eqb_refl.
Qed.

Lemma stripPrefix_Some (p s rest : jsstring) :
  stripPrefix p s = Some rest -> s = p ++ rest.
Proof.
  revert s; induction p as [|y p IH]; intros s; simpl.
  - congruence.
  - destruct s as [|x s]; [discriminate|].
    destruct (Ascii.eqb x y) eqn:E; [|discriminate].
    apply Ascii.eqb_eq in E. subst. intros H. now rewrite (IH _ H).
Qed.

(** A character that does not occur in the literal cannot help to
    complete it. *)
Lemma stripPrefix_frame (p a y : jsstring) (c : ascii) :
  ~ In c p ->
  stripPrefix p (a ++ c :: y)
  = option_map (fun rest => rest ++ c :: y) (stripPrefix p a).
Proof.
  revert a; induction p as [|o p IH]; intros a Hc; simpl; [reflexivity|].
  destruct a as [|x a]; simpl.
  - destruct (Ascii.eqb c o) eqn:E; [|reflexivity].
    apply Ascii.eqb_eq in E. subst. exfalso; apply Hc; now left.
  - destruct (Ascii.eqb x o); [|reflexivity].
    apply IH. intros H; apply Hc; now right.
Qed.

Lemma takeDigits_run (ds rest : jsstring) :
  forallb isDigit ds = true ->
  nextIn isDigit rest = false ->
  takeDigits (ds ++ rest) = (ds, rest).
Proof.
  intros Hds Hrest. induction ds as [|d ds IH]; simpl in *.
  - destruct rest as [|c rest]; [reflexivity|].
    simpl in Hrest. simpl. now rewrite Hrest.
  - apply andb_true_iff in Hds. destruct Hds as [Hd Hds].
    now rewrite Hd, (IH Hds).
Qed.

Lemma takeDigits_frame (a y : jsstring) (c : ascii) :
  isDigit c = false ->
  takeDigits (a ++ c :: y)
  = (fst (takeDigits a), snd (takeDigits a) ++ c :: y).
Proof.
  intros Hc. induction a as [|x a IH]; simpl.
  - now rewrite Hc.
  - destruct (isDigit x); [|reflexivity].
    rewrite IH. now destruct (takeDigits a).
Qed.

Lemma takeDigits_split (s : jsstring) :
  s = fst (takeDigits s) ++ snd (takeDigits s).
Proof.
  induction s as [|x s IH]; simpl; [reflexivity|].
  destruct (isDigit x); [|reflexivity].
  destruct (takeDigits s) as [ds r]; simpl in *. now rewrite <- IH.
Qed.

(** ** One placeholder expression at one position *)

Section OneExpression.

Variables opening closing : jsstring.

Local Abbreviation re := (matchPlaceholder opening closing).

(** The expression matches a placeholder of its shape, whatever
    follows, and captures the digits. *)
Lemma matchPlaceholder_occurrence (digits rest : jsstring) :
  digits <> [] -> forallb isDigit digits = true ->
  nextIn isDigit closing = false -> closing <> [] ->
  re ((opening ++ digits ++ closing) ++ rest)
  = Some (figureRef digits, length (opening ++ digits ++ closing)).
Proof.
  intros Hne Hds Hcl Hcne. unfold matchPlaceholder.
  rewrite <- !app_assoc, stripPrefix_app.
  rewrite takeDigits_run; [|exact Hds|].
  - destruct digits as [|d ds]; [congruence|].
    rewrite stripPrefix_app. now rewrite !length_app, Nat.add_assoc.
  - destruct closing; [congruence | exact Hcl].
Qed.

(** A match lies inside the text it was found in. *)
Lemma matchPlaceholder_length (s repl : jsstring) (len : nat) :
  re s = Some (repl, len) -> 1 <= len <= length s.
Proof.
  unfold matchPlaceholder.
  destruct (stripPrefix opening s) as [r|] eqn:E1; [|discriminate].
  pose proof (takeDigits_split r) as Hsplit.
  destruct (takeDigits r) as [ds r'] eqn:E2. simpl in Hsplit.
  destruct ds as [|d ds]; [discriminate|].
  destruct (stripPrefix closing r') as [r''|] eqn:E3; [|discriminate].
  intros H; inversion H; subst len repl.
  apply stripPrefix_Some in E1, E3. subst s r r'.
  rewrite !length_app. simpl. lia.
Qed.

(** The expression does not match where the text starts with another
    character than the expression. *)
Lemma matchPlaceholder_other_start (o x : ascii) (tail s : jsstring) :
  opening = o :: tail -> x <> o -> re (x :: s) = None.
Proof.
  intros -> Hx. unfold matchPlaceholder. simpl.
  apply Ascii.eqb_neq in Hx. now rewrite Hx.
Qed.

(** A character that occurs in the expression at most as its first
    character, and is no digit, ends every attempt that started before
    it: what stands behind that character does not matter. *)
Lemma matchPlaceholder_frame (a y : jsstring) (c : ascii) :
  a <> [] -> ~ In c (tl opening) -> ~ In c closing -> isDigit c = false ->
  re (a ++ c :: y) = re a.
Proof.
  intros Ha Hop Hcl Hd. unfold matchPlaceholder.
  assert (Hstrip : stripPrefix opening (a ++ c :: y)
                   = option_map (fun rest => rest ++ c :: y)
                                (stripPrefix opening a)).
  { destruct opening as [|o tail]; [reflexivity|].
    destruct a as [|x a']; [congruence|]. simpl.
    destruct (Ascii.eqb x o); [|reflexivity].
    now apply stripPrefix_frame. }
  rewrite Hstrip.
  destruct (stripPrefix opening a) as [r|]; [|reflexivity].
  cbn [option_map]. rewrite takeDigits_frame by exact Hd.
  destruct (takeDigits r) as [ds r']. cbn [fst snd].
  destruct ds as [|d ds]; [reflexivity|].
  rewrite stripPrefix_frame by exact Hcl.
  now destruct (stripPrefix closing r').
Qed.

(** Text in front of such a character is rewritten on its own. *)
Lemma replaceAll_placeholder_frame (a y : jsstring) (c : ascii) :
  ~ In c (tl opening) -> ~ In c closing -> isDigit c = false ->
  replaceAll re (a ++ c :: y) = replaceAll re a ++ replaceAll re (c :: y).
Proof.
  intros Hop Hcl Hd. apply replaceAll_frame.
  - intros a1 a2 _ Hne. now apply matchPlaceholder_frame.
  - intros s repl len. apply matchPlaceholder_length.
Qed.

(** Text without the first character of the expression is copied. *)
Lemma replaceAll_placeholder_copy (o : ascii) (tail a b : jsstring) :
  opening = o :: tail -> Forall (fun x => x <> o) a ->
  replaceAll re (a ++ b) = a ++ replaceAll re b.
Proof.
  intros Hop Ha. apply replaceAll_copy.
  intros a1 a2 -> Hne. apply Forall_app in Ha. destruct Ha as [_ Ha].
  destruct a2 as [|x a2]; [congruence|].
  inversion Ha as [|? ? Hx Hrest]. rewrite <- app_comm_cons.
  eapply matchPlaceholder_other_start; [exact Hop | exact Hx].
Qed.

(** A placeholder of the shape of the expression becomes the figure
    reference with the same digits. *)
Lemma replaceAll_placeholder_occurrence (digits rest : jsstring) :
  digits <> [] -> forallb isDigit digits = true ->
  nextIn isDigit closing = false -> closing <> [] ->
  replaceAll re ((opening ++ digits ++ closing) ++ rest)
  = figureRef digits ++ replaceAll re rest.
Proof.
  intros Hne Hds Hcl Hcne. apply replaceAll_match.
  - destruct digits; [congruence|]. destruct opening; discriminate.
  - now apply matchPlaceholder_occurrence.
Qed.

End OneExpression.

(** ** Characters that the expressions and figure references lack *)

Lemma not_In_by_eqb (c : ascii) (l : jsstring) :
  existsb (Ascii.eqb c) l = false -> ~ In c l.
Proof.
  intros H Hin. assert (existsb (Ascii.eqb c) l = true); [|congruence].
  apply existsb_exists. exists c. split; [exact Hin | apply Ascii.eqb_refl].
Qed.

Lemma all_differ (o : ascii) (a : jsstring) :
  forallb (fun x => negb (Ascii.eqb x o)) a = true ->
  Forall (fun x => x <> o) a.
Proof.
  rewrite forallb_forall, Forall_forall. intros H x Hx Heq.
  specialize (H x Hx). subst x. now rewrite Ascii.eqb_refl in H.
Qed.

Lemma digits_differ (o : ascii) (ds : jsstring) :
  isDigit o = false -> forallb isDigit ds = true ->
  Forall (fun x => x <> o) ds.
Proof.
  rewrite forallb_forall, Forall_forall. intros Ho H x Hx Heq.
  specialize (H x Hx). congruence.
Qed.

(** The decimal rendering of a counter is a non-empty run of digits. *)
Lemma decimal_digits (n : nat) :
  decimal n <> [] /\ forallb isDigit (decimal n) = true.
Proof.
  unfold decimal, lit.
  assert (H : forall d, forallb isDigit
                          (list_ascii_of_string (NilEmpty.string_of_uint d))
                        = true).
  { induction d; simpl; auto. }
  destruct (Nat.to_uint n) as [|d|d|d|d|d|d|d|d|d|d] eqn:E;
    (split; [discriminate|]);
    try reflexivity;
    match goal with
    | |- forallb _ (list_ascii_of_string (NilZero.string_of_uint ?u)) = _ =>
        change (NilZero.string_of_uint u) with (NilEmpty.string_of_uint u)
    end; apply H.
Qed.

(** ** Step 1 on the two shapes *)

Lemma figureRef_shape (digits rest : jsstring) :
  figureRef digits ++ rest
  = "!"%char
      :: (lit "[](images/figure_" ++ digits ++ lit ".png)") ++ rest.
Proof. unfold figureRef. now rewrite <- !app_assoc. Qed.

Lemma figureRef_no_bang (digits : jsstring) :
  forallb isDigit digits = true ->
  Forall (fun x => x <> "!"%char)
         (lit "[](images/figure_" ++ digits ++ lit ".png)").
Proof.
  intros Hds. apply Forall_app. split; [now apply all_differ|].
  apply Forall_app. split; [now apply digits_differ | now apply all_differ].
Qed.

(** The image expression leaves a figure reference alone. *)
Lemma imageSyntax_keeps_figureRef (a digits b : jsstring) :
  forallb isDigit digits = true ->
  replaceAll imageSyntaxRe (a ++ figureRef digits ++ b)
  = replaceAll imageSyntaxRe a ++ figureRef digits
      ++ replaceAll imageSyntaxRe b.
Proof.
  intros Hds. rewrite figureRef_shape. unfold imageSyntaxRe.
  rewrite replaceAll_placeholder_frame;
    [| now apply not_In_by_eqb | now apply not_In_by_eqb | reflexivity].
  f_equal. unfold replaceAll at 1. rewrite replaceGo_scan.
  change (matchPlaceholder imageSyntaxOpening imageSyntaxClosing
            ("!"%char :: (lit "[](images/figure_" ++ digits ++ lit ".png)")
                      ++ b))
    with (@None (jsstring * nat)).
  cbv iota. rewrite figureRef_shape. f_equal.
  apply (@replaceAll_placeholder_copy
           imageSyntaxOpening imageSyntaxClosing
           "!"%char (tl imageSyntaxOpening)); [reflexivity|].
  now apply figureRef_no_bang.
Qed.

(** The attribute shape. *)
Lemma rewritePlaceholders_attribute (pre digits post : jsstring) :
  digits <> [] -> forallb isDigit digits = true ->
  rewritePlaceholders (pre ++ attributeForm digits ++ post)
  = rewritePlaceholders pre ++ figureRef digits ++ rewritePlaceholders post.
Proof.
  intros Hne Hds. unfold rewritePlaceholders.
  assert (Hshape : attributeForm digits ++ post
                   = "s"%char :: (tl srcAttributeOpening ++ digits
                                    ++ srcAttributeClosing) ++ post).
  { unfold attributeForm. now rewrite <- !app_assoc. }
  rewrite Hshape. unfold srcAttributeRe.
  rewrite replaceAll_placeholder_frame;
    [| now apply not_In_by_eqb | now apply not_In_by_eqb | reflexivity].
  rewrite <- Hshape. unfold attributeForm.
  rewrite replaceAll_placeholder_occurrence;
    [| exact Hne | exact Hds | reflexivity | discriminate].
  now apply imageSyntax_keeps_figureRef.
Qed.

(** The image shape. *)
Lemma rewritePlaceholders_image (pre digits post : jsstring) :
  digits <> [] -> forallb isDigit digits = true ->
  rewritePlaceholders (pre ++ imageForm digits ++ post)
  = rewritePlaceholders pre ++ figureRef digits ++ rewritePlaceholders post.
Proof.
  intros Hne Hds. unfold rewritePlaceholders.
  assert (Hshape : forall x,
             imageForm digits ++ x
             = "!"%char :: (tl imageSyntaxOpening ++ digits
                              ++ imageSyntaxClosing) ++ x).
  { intros x. unfold imageForm. now rewrite <- !app_assoc. }
  rewrite Hshape. unfold srcAttributeRe.
  rewrite replaceAll_placeholder_frame;
    [| now apply not_In_by_eqb | now apply not_In_by_eqb | reflexivity].
  rewrite <- Hshape.
  rewrite (@replaceAll_placeholder_copy
             srcAttributeOpening srcAttributeClosing
             "s"%char (tl srcAttributeOpening));
    [| reflexivity
     | unfold imageForm; apply Forall_app; split; [now apply all_differ|];
       apply Forall_app; split;
         [now apply digits_differ | now apply all_differ]].
  rewrite Hshape. unfold imageSyntaxRe.
  rewrite replaceAll_placeholder_frame;
    [| now apply not_In_by_eqb | now apply not_In_by_eqb | reflexivity].
  rewrite <- Hshape. unfold imageForm. f_equal.
  rewrite replaceAll_placeholder_occurrence;
    [| exact Hne | exact Hds | reflexivity | discriminate].
  reflexivity.
Qed.

(** ** Step 2 around a figure reference *)

Lemma dropBackslashBefore_frame (class : ascii -> bool) (a y : jsstring)
      (c : ascii) :
  class c = false ->
  dropBackslashBefore class (a ++ c :: y)
  = dropBackslashBefore class a ++ dropBackslashBefore class (c :: y).
Proof.
  intros Hc. induction a as [|x a IH]; [reflexivity|].
  rewrite <- app_comm_cons.
  change (dropBackslashBefore class (x :: a ++ c :: y))
    with (if Ascii.eqb x backslash && nextIn class (a ++ c :: y)
          then dropBackslashBefore class (a ++ c :: y)
          else x :: dropBackslashBefore class (a ++ c :: y)).
  change (dropBackslashBefore class (x :: a))
    with (if Ascii.eqb x backslash && nextIn class a
          then dropBackslashBefore class a
          else x :: dropBackslashBefore class a).
  assert (Hn : nextIn class (a ++ c :: y) = nextIn class a).
  { destruct a; simpl; [exact Hc | reflexivity]. }
  rewrite Hn, IH.
  now destruct (Ascii.eqb x backslash && nextIn class a).
Qed.

Lemma dropBackslashBefore_copy (class : ascii -> bool) (a b : jsstring) :
  Forall (fun x => x <> backslash) a ->
  dropBackslashBefore class (a ++ b) = a ++ dropBackslashBefore class b.
Proof.
  induction 1 as [|x a Hx Ha IH]; [reflexivity|].
  rewrite <- !app_comm_cons. cbn [dropBackslashBefore].
  apply Ascii.eqb_neq in Hx. rewrite Hx. cbn [andb]. now rewrite IH.
Qed.

Lemma escapeCleanup_figureRef (a digits b : jsstring) :
  forallb isDigit digits = true ->
  escapeCleanup (a ++ figureRef digits ++ b)
  = escapeCleanup a ++ figureRef digits ++ escapeCleanup b.
Proof.
  intros Hds. rewrite !EscapeProofs.escapeCleanup_refines.
  unfold spec_escapeCleanup.
  rewrite figureRef_shape, dropBackslashBefore_frame by reflexivity.
  f_equal. rewrite <- figureRef_shape.
  apply dropBackslashBefore_copy. unfold figureRef.
  apply Forall_app; split; [now apply all_differ|].
  apply Forall_app; split; [now apply digits_differ | now apply all_differ].
Qed.

(** Both steps on a placeholder in either shape. *)
Lemma postProcess_placeholder (pre digits post : jsstring) :
  digits <> [] -> forallb isDigit digits = true ->
  postProcess (pre ++ attributeForm digits ++ post)
  = postProcess pre ++ figureRef digits ++ postProcess post
  /\ postProcess (pre ++ imageForm digits ++ post)
     = postProcess pre ++ figureRef digits ++ postProcess post.
Proof.
  intros Hne Hds. unfold postProcess.
  rewrite rewritePlaceholders_attribute, rewritePlaceholders_image
    by assumption.
  split; now apply escapeCleanup_figureRef.
Qed.

(** ** Counting the figure path and the placeholder token *)

Lemma count_around_figure_1 (a b : jsstring) :
  countOcc figurePath1 (a ++ figureRef (lit "1") ++ b)
  = countOcc figurePath1 a + 1 + countOcc figurePath1 b
  /\ countOcc placeholderToken (a ++ figureRef (lit "1") ++ b)
     = countOcc placeholderToken a + countOcc placeholderToken b.
Proof.
  assert (Hshape : figureRef (lit "1") ++ b
                   = "!"%char :: lit "[](images/figure_1.png"
                              ++ ")"%char :: b) by reflexivity.
  rewrite Hshape. split.
  - rewrite countOcc_app_absent;
      [| now apply not_In_by_eqb | discriminate].
    rewrite countOcc_app_absent;
      [| now apply not_In_by_eqb | discriminate].
    change (countOcc figurePath1 (lit "[](images/figure_1.png")) with 1.
    lia.
  - rewrite countOcc_app_absent;
      [| now apply not_In_by_eqb | discriminate].
    rewrite countOcc_app_absent;
      [| now apply not_In_by_eqb | discriminate].
    change (countOcc placeholderToken (lit "[](images/figure_1.png")) with 0.
    lia.
Qed.

Lemma forms_of_placeholder (n : nat) :
  asAttribute (placeholder n) = attributeForm (decimal n)
  /\ asImage (placeholder n) = imageForm (decimal n).
Proof.
  split; reflexivity.
Qed.

(** ** The claim *)

(** X25.  The two shapes the code looks for.  Step 1 of the clean-up
    rewrites every placeholder that stands in one of them, the attribute
    [src=] with the quoted placeholder and the markdown image with empty
    alternative text, into the markdown image of [images/figure_<n>.png]
    with the same digits [n], whatever stands before and behind; the
    placeholders the callback hands out are of this kind.  Hence, when a
    decoder meets one image and writes the placeholder it was given,
    unescaped, in one of the two shapes, the markdown returned has one
    occurrence of [images/figure_1.png] more than the text around the
    image contributes and no placeholder token beyond those of that
    text: exactly one and none when that text contributes none. *)
Theorem placeholders_become_figure_paths :
  (forall pre digits post,
      digits <> [] -> forallb isDigit digits = true ->
      rewritePlaceholders (pre ++ attributeForm digits ++ post)
      = rewritePlaceholders pre ++ figureRef digits
          ++ rewritePlaceholders post
      /\ rewritePlaceholders (pre ++ imageForm digits ++ post)
         = rewritePlaceholders pre ++ figureRef digits
             ++ rewritePlaceholders post)
  /\ (forall n,
         asAttribute (placeholder n) = attributeForm (decimal n)
         /\ asImage (placeholder n) = imageForm (decimal n)
         /\ decimal n <> [] /\ forallb isDigit (decimal n) = true)
  /\ (forall (decoder : ArrayBuffer -> list jsstring -> Mammoth)
             (arrayBuffer : ArrayBuffer) (log : Log) (pre post : jsstring),
         decoder arrayBuffer styleMap
         = ImageElement (fun src => Resolves (pre ++ asImage src ++ post))
         \/ decoder arrayBuffer styleMap
            = ImageElement
                (fun src => Resolves (pre ++ asAttribute src ++ post)) ->
         let markdown :=
           postProcess pre ++ figureRef (lit "1") ++ postProcess post in
         fst (convertDocxToMd decoder arrayBuffer log) = inl markdown
         /\ countOcc figurePath1 markdown
            = countOcc figurePath1 (postProcess pre) + 1
              + countOcc figurePath1 (postProcess post)
         /\ countOcc placeholderToken markdown
            = countOcc placeholderToken (postProcess pre)
              + countOcc placeholderToken (postProcess post)
         /\ (countOcc figurePath1 (postProcess pre) = 0 ->
             countOcc figurePath1 (postProcess post) = 0 ->
             countOcc placeholderToken (postProcess pre) = 0 ->
             countOcc placeholderToken (postProcess post) = 0 ->
             countOcc figurePath1 markdown = 1
             /\ countOcc placeholderToken markdown = 0)).
Proof.
  split; [|split].
  - intros pre digits post Hne Hds.
    split; [now apply rewritePlaceholders_attribute
           | now apply rewritePlaceholders_image].
  - intros n. destruct (forms_of_placeholder n) as [Ha Hi].
    destruct (decimal_digits n) as [Hne Hds]. auto.
  - intros decoder arrayBuffer log pre post Hdecoder markdown.
    destruct (count_around_figure_1 (postProcess pre) (postProcess post))
      as [Hfig Htok].
    fold markdown in Hfig, Htok.
    assert (Hresult : fst (convertDocxToMd decoder arrayBuffer log)
                      = inl markdown).
    { rewrite ExtractorProofs.convertDocxToMd_unfold. cbv zeta. cbn [fst].
      destruct (postProcess_placeholder pre post
                  (proj1 (decimal_digits 1)) (proj2 (decimal_digits 1)))
        as [Hattr Himg].
      destruct Hdecoder as [-> | ->];
        rewrite ExtractorProofs.await_ImageElement;
        cbn [fst snd outcome await ret resultOf]; unfold ret;
        cbn [fst outcome resultOf]; f_equal.
      - rewrite (proj2 (forms_of_placeholder 1)). exact Himg.
      - rewrite (proj1 (forms_of_placeholder 1)). exact Hattr. }
    split; [exact Hresult|]. split; [exact Hfig|]. split; [exact Htok|].
    intros H1 H2 H3 H4. rewrite Hfig, Htok, H1, H2, H3, H4. auto.
Qed.

(** A document with a title, one image and a caption. *)
Lemma placeholders_become_figure_paths_witness :
  let decoder : ArrayBuffer -> list jsstring -> Mammoth :=
    fun _ _ =>
      ImageElement
        (fun src => Resolves (lit "# Report " ++ asImage src
                                ++ lit " Figure 1")) in
  let markdown :=
    postProcess (lit "# Report ") ++ figureRef (lit "1")
      ++ postProcess (lit " Figure 1") in
  fst (convertDocxToMd decoder [x50%byte; x4b%byte] []) = inl markdown
  /\ countOcc figurePath1 markdown = 1
  /\ countOcc placeholderToken markdown = 0.
Proof.
  cbv zeta.
  destruct placeholders_become_figure_paths as (_ & _ & H).
  destruct (H (fun _ _ =>
                 ImageElement
                   (fun src => Resolves (lit "# Report " ++ asImage src
                                           ++ lit " Figure 1")))
              [x50%byte; x4b%byte] [] (lit "# Report ") (lit " Figure 1")
              (or_introl eq_refl))
    as (Hres & _ & _ & Hcount).
  split; [exact Hres|].
  apply Hcount; reflexivity.
Defined.

(** C5.  The code at a document with exactly one picture, which carries
    the alternative text [logo].  The decoder writes the picture as a
    markdown image with that text between the brackets; neither of the
    two expressions of step 1 matches it, with the [src] written as it is
    or with its underscores escaped, and in the second case the escape
    clean-up, which runs after step 1, then restores the bare
    placeholder.  The markdown returned holds the placeholder token once
    and [images/figure_1.png] nowhere, where the claim asks for one
    figure path and no placeholder.  With the underscores escaped the
    same happens to a picture without alternative text. *)
Theorem one_image_document_keeps_its_placeholder :
  fst (convertDocxToMd Sample.logoDecoder [x50%byte; x4b%byte] [])
  = inl (lit "![logo](IMAGE_PATH_PLACEHOLDER_1)")
  /\ fst (convertDocxToMd Sample.escapingLogoDecoder [x50%byte; x4b%byte] [])
     = inl (lit "![logo](IMAGE_PATH_PLACEHOLDER_1)")
  /\ countOcc figurePath1 (lit "![logo](IMAGE_PATH_PLACEHOLDER_1)") = 0
  /\ countOcc placeholderToken (lit "![logo](IMAGE_PATH_PLACEHOLDER_1)") = 1
  /\ fst (convertDocxToMd Sample.escapingDecoder [x50%byte; x4b%byte] [])
     = inl (lit "![](IMAGE_PATH_PLACEHOLDER_1)")
  /\ countOcc figurePath1 (lit "![](IMAGE_PATH_PLACEHOLDER_1)") = 0
  /\ countOcc placeholderToken (lit "![](IMAGE_PATH_PLACEHOLDER_1)") = 1.
Proof.
  split; [|split; [|split; [|split; [|split; [|split]]]]];
    vm_compute; reflexivity.
Qed.

End PlaceholderProofs.

(* ================================================================== *)
(** * More on splitting and on the asset resolver *)
(* ================================================================== *)

Module SplitFacts.

Lemma split_length (sep : ascii) (s : jsstring) :
  length (split sep s) = 1 + countChar sep s.
Proof.
  unfold countChar. induction s as [|c t IH]; simpl; [reflexivity|].
  rewrite (Ascii.eqb_sym sep c).
  destruct (Ascii.eqb c sep); simpl; [now rewrite IH|].
  pose proof (split_nonempty sep t) as Hne.
  destruct (split sep t) as [|p rest]; [contradiction|]. exact IH.
Qed.

Lemma split_pieces (sep : ascii) (s : jsstring) :
  Forall (fun piece => ~ In sep piece) (split sep s).
Proof.
  induction s as [|c t IH]; simpl; [repeat constructor; auto|].
  destruct (Ascii.eqb c sep) eqn:E; [constructor; auto|].
  destruct (split sep t) as [|p rest]; [repeat constructor|].
  - intros [H|[]]. subst. now rewrite Ascii.eqb_refl in E.
  - inversion IH; subst. constructor; [|assumption].
    intros [H|H]; [|contradiction].
    subst. now rewrite Ascii.eqb_refl in E.
Qed.

Lemma split_without_separator (sep : ascii) (s : jsstring) :
  ~ In sep s -> split sep s = [s].
Proof.
  induction s as [|c t IH]; intros Hno; simpl; [reflexivity|].
  destruct (Ascii.eqb c sep) eqn:E.
  - apply Ascii.eqb_eq in E. subst. exfalso; apply Hno; now left.
  - rewrite IH; [reflexivity|]. intros H; apply Hno; now right.
Qed.

(** Behind a separator the pieces are those of the rest: the last piece
    of the whole is the last piece of what follows the separator. *)
Lemma split_last_after (sep : ascii) (a t : jsstring) :
  last (split sep (a ++ sep :: t)) [] = last (split sep t) [].
Proof.
  induction a as [|x a IH]; simpl.
  - rewrite Ascii.eqb_refl.
    pose proof (split_nonempty sep t).
    destruct (split sep t); [contradiction | reflexivity].
  - pose proof (split_length sep (a ++ sep :: t)) as Hlen.
    assert (Hcount : 1 <= countChar sep (a ++ sep :: t)).
    { unfold countChar. rewrite filter_app, length_app. simpl.
      rewrite Ascii.eqb_refl. simpl. lia. }
    destruct (Ascii.eqb x sep).
    + destruct (split sep (a ++ sep :: t)) as [|p rest];
        [simpl in Hlen; lia | exact IH].
    + destruct (split sep (a ++ sep :: t)) as [|p [|q rest]];
        [simpl in Hlen; lia | simpl in Hlen; lia | exact IH].
Qed.

(** The last piece is a suffix of the string. *)
Lemma split_last_suffix (sep : ascii) (s : jsstring) :
  exists p, s = p ++ last (split sep s) [].
Proof.
  induction s as [|c t [p IH]]; simpl; [exists []; reflexivity|].
  pose proof (split_nonempty sep t) as Hne.
  pose proof (join_split sep t) as Hjoin.
  destruct (Ascii.eqb c sep).
  - exists (c :: p). destruct (split sep t) as [|q rest];
      [contradiction|]. simpl in *. now rewrite <- IH.
  - destruct (split sep t) as [|q [|r rest]]; [contradiction| |].
    + exists []. simpl in *. now rewrite Hjoin.
    + exists (c :: p). simpl in *. now rewrite <- IH.
Qed.

(** Appending text without separator extends the last piece. *)
Lemma split_last_app (sep : ascii) (p name : jsstring) :
  ~ In sep name ->
  last (split sep (p ++ name)) [] = last (split sep p) [] ++ name.
Proof.
  intros Hno. induction p as [|c t IH].
  - cbn [app]. now rewrite split_without_separator.
  - pose proof (split_length sep (t ++ name)) as Hl1.
    pose proof (split_length sep t) as Hl2.
    assert (Hcount : countChar sep (t ++ name) = countChar sep t).
    { unfold countChar. rewrite filter_app, length_app.
      replace (filter (Ascii.eqb sep) name) with (@nil ascii);
        [simpl; lia|].
      symmetry. clear - Hno. induction name as [|x name IH];
        [reflexivity|]. simpl.
      destruct (Ascii.eqb sep x) eqn:E.
      - apply Ascii.eqb_eq in E. subst. exfalso. apply Hno. now left.
      - apply IH. intros H. apply Hno. now right. }
    rewrite Hcount in Hl1.
    cbn [app split]. destruct (Ascii.eqb c sep).
    + destruct (split sep (t ++ name)) as [|q rest],
               (split sep t) as [|q' rest'];
        simpl in Hl1, Hl2; try lia. exact IH.
    + destruct (split sep (t ++ name)) as [|q [|r rest]],
               (split sep t) as [|q' [|r' rest']];
        simpl in Hl1, Hl2; try lia.
      * simpl in IH. simpl. now rewrite IH.
      * exact IH.
Qed.

End SplitFacts.
Import SplitFacts.

Module ResolverMore.
Import DocxConverter ResolverProofs.

Lemma map_get_In (images : ImageMap) (key : jsstring) (d : ArrayBuffer) :
  map_get images key = Some d -> In (key, d) images.
Proof.
  induction images as [|[k v] rest IH]; simpl; [discriminate|].
  destruct (str_eqb k key) eqn:E.
  - apply str_eqb_eq in E. intros H; inversion H; subst. now left.
  - intros H. right. now apply IH.
Qed.

(** In a map that holds each key once, [get] finds every entry. *)
Lemma map_get_of_In (images : ImageMap) (key : jsstring) (d : ArrayBuffer) :
  map_wf images -> In (key, d) images -> map_get images key = Some d.
Proof.
  unfold map_wf. induction images as [|[k v] rest IH]; simpl;
    [contradiction|].
  intros Hwf [H|H]; inversion Hwf as [|? ? Hnot Hrest]; subst.
  - inversion H; subst. now rewrite str_eqb_refl.
  - destruct (str_eqb k key) eqn:E; [|now apply IH].
    apply str_eqb_eq in E. subst k. exfalso. apply Hnot.
    apply in_map_iff. exists (key, d). auto.
Qed.

Lemma normalizeHref_cases (href : jsstring) :
  normalizeHref href = href
  \/ href = "."%char :: "/"%char :: normalizeHref href
  \/ href = "/"%char :: normalizeHref href.
Proof.
  unfold normalizeHref.
  destruct (stripPrefix (lit "./") href) as [r|] eqn:E1.
  - right; left. now apply PlaceholderProofs.stripPrefix_Some in E1.
  - destruct (stripPrefix (lit "/") href) as [r|] eqn:E2; [|now left].
    right; right. now apply PlaceholderProofs.stripPrefix_Some in E2.
Qed.

(** Normalizing does not change the file name. *)
Lemma fileNameOf_normalizeHref (href : jsstring) :
  fileNameOf (normalizeHref href) = fileNameOf href.
Proof.
  unfold fileNameOf, popOrEmpty.
  destruct (normalizeHref_cases href) as [H|[H|H]].
  - now rewrite H.
  - rewrite H at 2.
    symmetry. apply (split_last_after "/"%char ["."%char]).
  - rewrite H at 2.
    symmetry. apply (split_last_after "/"%char []).
Qed.

Lemma fileNameOf_suffix (href : jsstring) :
  exists p, href = p ++ fileNameOf href.
Proof. apply split_last_suffix. Qed.

Lemma fileNameOf_no_slash (href : jsstring) :
  ~ In "/"%char (fileNameOf href).
Proof.
  unfold fileNameOf, popOrEmpty.
  pose proof (split_pieces "/"%char href) as Hall.
  pose proof (split_nonempty "/"%char href) as Hne.
  rewrite Forall_forall in Hall. apply Hall.
  destruct (split "/"%char href) as [|p rest]; [contradiction|].
  apply (@exists_last _ (p :: rest)) in Hne.
  destruct Hne as (front & x & ->). rewrite last_last.
  apply in_or_app. right. now left.
Qed.

(** The file name of a key that ends with a slash-free name ends with
    that name. *)
Lemma fileNameOf_app (p name : jsstring) :
  ~ In "/"%char name -> fileNameOf (p ++ name) = fileNameOf p ++ name.
Proof.
  intros Hno. unfold fileNameOf, popOrEmpty. now apply split_last_app.
Qed.

(** X1.  Whatever [resolveImage] returns is the payload of an entry of
    the map: the resolver never makes up a payload.  The key of that
    entry is the reference, the normalized reference or the file name of
    the reference, or it ends with the reference or the normalized
    reference; in every case the key, and the file name of the key, end
    with the file name of the reference (the part behind its last
    slash).  They only end with it: the file name of the key can be
    longer than that of the reference. *)
Theorem resolved_payload_is_stored
        (images : ImageMap) (href : jsstring) (d : ArrayBuffer) :
  resolveImage images href = Some d ->
  exists key p,
    In (key, d) images
    /\ (key = href \/ key = normalizeHref href \/ key = fileNameOf href
        \/ endsWith key href = true
        \/ endsWith key (normalizeHref href) = true)
    /\ key = p ++ fileNameOf href
    /\ fileNameOf key = fileNameOf p ++ fileNameOf href.
Proof.
  assert (Hname : forall key p,
             key = p ++ fileNameOf href ->
             fileNameOf key = fileNameOf p ++ fileNameOf href).
  { intros key p ->. apply fileNameOf_app, fileNameOf_no_slash. }
  destruct (fileNameOf_suffix href) as [p1 Hp1].
  destruct (fileNameOf_suffix (normalizeHref href)) as [p2 Hp2].
  rewrite fileNameOf_normalizeHref in Hp2.
  unfold resolveImage.
  destruct (map_has images href).
  { intros H. exists href, p1.
    split; [now apply map_get_In|]. split; [now left|].
    split; [exact Hp1 | now apply Hname]. }
  destruct (map_has images (normalizeHref href)).
  { intros H. exists (normalizeHref href), p2.
    split; [now apply map_get_In|]. split; [right; now left|].
    split; [exact Hp2 | now apply Hname]. }
  destruct (map_has images (fileNameOf href)).
  { intros H. exists (fileNameOf href), [].
    split; [now apply map_get_In|]. split; [right; right; now left|].
    split; [reflexivity | now apply Hname]. }
  intros H. apply deepSearch_first in H.
  destruct H as (before & key & after & -> & Hm & _).
  unfold deepMatch in Hm. apply orb_true_iff in Hm.
  destruct Hm as [Hm|Hm]; pose proof Hm as Hends;
    apply endsWith_suffix in Hm; destruct Hm as [q ->].
  - exists (q ++ href), (q ++ p1).
    split; [apply in_or_app; right; now left|].
    split; [right; right; right; now left|].
    assert (Hkey : q ++ href = (q ++ p1) ++ fileNameOf href)
      by (rewrite <- app_assoc; now rewrite <- Hp1).
    split; [exact Hkey | now apply Hname].
  - exists (q ++ normalizeHref href), (q ++ p2).
    split; [apply in_or_app; right; now left|].
    split; [right; right; right; now right|].
    assert (Hkey : q ++ normalizeHref href = (q ++ p2) ++ fileNameOf href)
      by (rewrite <- app_assoc; now rewrite <- Hp2).
    split; [exact Hkey | now apply Hname].
Qed.

Lemma resolved_payload_is_stored_witness :
  exists key p,
    In (key, [x01%byte])
       [(lit "docs/logo.svg", [x00%byte]); (lit "data.png", [x01%byte])]
    /\ (key = lit "a.png" \/ key = normalizeHref (lit "a.png")
        \/ key = fileNameOf (lit "a.png")
        \/ endsWith key (lit "a.png") = true
        \/ endsWith key (normalizeHref (lit "a.png")) = true)
    /\ key = p ++ fileNameOf (lit "a.png")
    /\ fileNameOf key = fileNameOf p ++ fileNameOf (lit "a.png").
Proof.
  apply (@resolved_payload_is_stored
           [(lit "docs/logo.svg", [x00%byte]); (lit "data.png", [x01%byte])]
           (lit "a.png") [x01%byte]).
  reflexivity.
Defined.

(** X2.  [fileNameOf] is the part of a reference behind its last slash:
    for a directory part and a name without slash it returns the name, a
    reference without slash is its own file name, the result never
    contains a slash, and it is always the end of the reference (empty
    when the reference ends with a slash). *)
Theorem fileNameOf_is_the_last_segment (dir f : jsstring) :
  ~ In "/"%char f ->
  fileNameOf (dir ++ "/"%char :: f) = f
  /\ fileNameOf f = f
  /\ fileNameOf (dir ++ ["/"%char]) = []
  /\ (forall href,
         ~ In "/"%char (fileNameOf href)
         /\ exists p, href = p ++ fileNameOf href).
Proof.
  intros Hf.
  assert (Hself : fileNameOf f = f).
  { unfold fileNameOf, popOrEmpty.
    now rewrite (split_without_separator _ _ Hf). }
  split; [|split; [exact Hself|split]].
  - unfold fileNameOf, popOrEmpty in *. now rewrite split_last_after.
  - unfold fileNameOf, popOrEmpty. now rewrite split_last_after.
  - intros href. split; [apply fileNameOf_no_slash | apply fileNameOf_suffix].
Qed.

Lemma fileNameOf_is_the_last_segment_witness :
  fileNameOf (lit "assets/2023" ++ "/"%char :: lit "photo.png")
  = lit "photo.png".
Proof.
  apply (@fileNameOf_is_the_last_segment (lit "assets/2023") (lit "photo.png")).
  vm_compute. intuition discriminate.
Defined.

(** The references that normalize to the empty string. *)
Lemma normalizeHref_empty (href : jsstring) :
  normalizeHref href = [] <->
  href = [] \/ href = lit "/" \/ href = lit "./".
Proof.
  split.
  - intros H. destruct (normalizeHref_cases href) as [H'|[H'|H']];
      rewrite H in H'; auto.
  - intros [->|[->| ->]]; reflexivity.
Qed.

(** X3.  A reference that is empty, or is only [/] or [./], matches every
    key in the scan of step 4, since every key ends with the empty
    string: unless the reference itself or the empty string is a key, it
    resolves to the first asset of the map, whatever that asset is. *)
Theorem empty_reference_takes_the_first_asset
        (href key : jsstring) (val : ArrayBuffer) (rest : ImageMap) :
  href = [] \/ href = lit "/" \/ href = lit "./" ->
  ~ In href (map fst ((key, val) :: rest)) ->
  ~ In [] (map fst ((key, val) :: rest)) ->
  resolveImage ((key, val) :: rest) href = Some val
  /\ resolveImageVia ((key, val) :: rest) href = Some (DeepSearch, val).
Proof.
  intros Hhref Hk He.
  assert (Hn : normalizeHref href = []) by now apply normalizeHref_empty.
  assert (Hf : fileNameOf href = []).
  { rewrite <- fileNameOf_normalizeHref, Hn. reflexivity. }
  assert (Hvia : resolveImageVia ((key, val) :: rest) href
                 = Some (DeepSearch, val)).
  { unfold resolveImageVia.
    rewrite (map_has_false _ _ Hk), Hn, Hf, (map_has_false _ _ He).
    cbn [deepSearch].
    assert (Hend : endsWith key [] = true).
    { apply endsWith_suffix. exists key. now rewrite app_nil_r. }
    rewrite Hend, orb_true_r. reflexivity. }
  split; [|exact Hvia].
  rewrite <- resolveImageVia_payload, Hvia. reflexivity.
Qed.

Lemma empty_reference_takes_the_first_asset_witness :
  resolveImage [(lit "cover.png", [x07%byte]); (lit "a.png", [x08%byte])]
               (lit "./")
  = Some [x07%byte].
Proof.
  apply (@empty_reference_takes_the_first_asset
           (lit "./") (lit "cover.png") [x07%byte]
           [(lit "a.png", [x08%byte])]).
  - right; right; reflexivity.
  - vm_compute; intuition discriminate.
  - vm_compute; intuition discriminate.
Defined.

Lemma permuted_keys (images images' : ImageMap) (key : jsstring) :
  Permutation images images' ->
  In key (map fst images) -> In key (map fst images').
Proof.
  intros Hp. apply Permutation_in. now apply Permutation_map.
Qed.

Lemma permuted_get (images images' : ImageMap) (key : jsstring) :
  Permutation images images' -> map_wf images ->
  map_get images key = map_get images' key.
Proof.
  intros Hp Hwf.
  assert (Hwf' : map_wf images').
  { unfold map_wf in *. eapply Permutation_NoDup; [|exact Hwf].
    now apply Permutation_map. }
  destruct (map_get images key) as [d|] eqn:E.
  - symmetry. apply map_get_of_In; [exact Hwf'|].
    eapply Permutation_in; [exact Hp|]. now apply map_get_In.
  - destruct (map_get images' key) as [d|] eqn:E'; [|reflexivity].
    apply map_get_In in E'.
    apply (Permutation_in _ (Permutation_sym Hp)) in E'.
    apply (map_get_of_In _ _ Hwf) in E'. congruence.
Qed.

(** X4.  The order of the entries matters only to the scan of step 4.
    Whether a reference resolves at all is the same for every order of
    the same entries; and in a map that holds each key once, a reference
    that hits one of the first three steps resolves to the same payload
    in every order. *)
Theorem resolution_and_entry_order
        (images images' : ImageMap) (href : jsstring) :
  Permutation images images' ->
  (resolveImage images href = None <-> resolveImage images' href = None)
  /\ (map_wf images ->
      In href (map fst images)
      \/ In (normalizeHref href) (map fst images)
      \/ In (fileNameOf href) (map fst images) ->
      resolveImage images href = resolveImage images' href).
Proof.
  intros Hp. split.
  - assert (Hdir : forall a b : ImageMap,
               Permutation a b ->
               resolveImage a href = None -> resolveImage b href = None).
    { intros a b Hab H. apply resolveImage_None in H.
      destruct H as (H1 & H2 & H3 & H4). apply resolveImage_None.
      pose proof (Permutation_sym Hab) as Hba.
      repeat split;
        try (intros Hin; apply (permuted_keys _ Hba) in Hin; contradiction).
      apply deepSearch_None. apply deepSearch_None in H4.
      eapply Permutation_Forall; eauto. }
    split; [apply Hdir; exact Hp | apply Hdir; now apply Permutation_sym].
  - intros Hwf Hhit. unfold resolveImage, map_has.
    rewrite <- !(permuted_get _ Hp Hwf).
    destruct (map_get images href) eqn:E1; [reflexivity|].
    destruct (map_get images (normalizeHref href)) eqn:E2; [reflexivity|].
    destruct (map_get images (fileNameOf href)) eqn:E3; [reflexivity|].
    exfalso.
    destruct Hhit as [H|[H|H]]; apply map_has_In in H;
      unfold map_has in H; rewrite ?E1, ?E2, ?E3 in H; discriminate.
Qed.

Lemma resolution_and_entry_order_witness :
  resolveImage [(lit "a/x.png", [x01%byte]); (lit "x.png", [x02%byte])]
               (lit "img/x.png")
  = resolveImage [(lit "x.png", [x02%byte]); (lit "a/x.png", [x01%byte])]
                 (lit "img/x.png").
Proof.
  apply (@resolution_and_entry_order
           [(lit "a/x.png", [x01%byte]); (lit "x.png", [x02%byte])]
           [(lit "x.png", [x02%byte]); (lit "a/x.png", [x01%byte])]
           (lit "img/x.png")).
  - apply perm_swap.
  - unfold map_wf. repeat constructor; vm_compute; intuition discriminate.
  - right; right. vm_compute. tauto.
Defined.

(** X5.  The earlier variant looks a reference up by its file name and
    then by the reference itself.  Every reference it finds, the four
    steps of [resolveImage] find as well; the payloads can differ, since
    the later variant asks for the exact key first and the earlier one
    for the file name first. *)
Theorem earlier_lookup_is_covered
        (images : ImageMap) (href : jsstring) (d : ArrayBuffer) :
  EarlierDocxConverter.imageDataOf images href = Some d ->
  (exists d', resolveImage images href = Some d')
  /\ (forall d1, map_get images href = Some d1 ->
                 resolveImage images href = Some d1)
  /\ (forall d2, map_get images (fileNameOf href) = Some d2 -> d = d2).
Proof.
  unfold EarlierDocxConverter.imageDataOf. intros H.
  split; [|split].
  - destruct (resolveImage images href) as [d'|] eqn:E; [eauto|].
    apply resolveImage_None in E. destruct E as (H1 & _ & H3 & _).
    apply map_has_false in H1, H3. unfold map_has in H1, H3.
    destruct (map_get images (fileNameOf href)); [discriminate|].
    destruct (map_get images href); discriminate.
  - intros d1 H1. unfold resolveImage, map_has. now rewrite H1.
  - intros d2 H2. rewrite H2 in H. congruence.
Qed.

Lemma earlier_lookup_is_covered_witness :
  (exists d', resolveImage [(lit "x.png", [x02%byte]);
                            (lit "img/x.png", [x01%byte])]
                           (lit "img/x.png") = Some d')
  /\ (forall d1, map_get [(lit "x.png", [x02%byte]);
                          (lit "img/x.png", [x01%byte])]
                         (lit "img/x.png") = Some d1 ->
                 resolveImage [(lit "x.png", [x02%byte]);
                               (lit "img/x.png", [x01%byte])]
                              (lit "img/x.png") = Some d1)
  /\ (forall d2, map_get [(lit "x.png", [x02%byte]);
                          (lit "img/x.png", [x01%byte])]
                         (fileNameOf (lit "img/x.png")) = Some d2 ->
                 [x02%byte] = d2).
Proof.
  apply (@earlier_lookup_is_covered
           [(lit "x.png", [x02%byte]); (lit "img/x.png", [x01%byte])]
           (lit "img/x.png") [x02%byte]).
  reflexivity.
Defined.

End ResolverMore.

(* ================================================================== *)
(** * More on the markdown compiler *)
(* ================================================================== *)

Module CompilerMore.
Import DocxConverter TokenStream.

(** A loop whose body pushes and logs independently of the log so far. *)
Lemma forEachPush_writer {A B : Type} (body : A -> Sink (list B))
      (out : A -> list B) (extra : A -> list LogEntry) :
  (forall x log, body x log = (out x, log ++ extra x)) ->
  forall xs log,
    forEachPush body xs log = (flat_map out xs, log ++ flat_map extra xs).
Proof.
  intros Hbody. induction xs as [|x xs IH]; intros log.
  - simpl. unfold ret. now rewrite app_nil_r.
  - rewrite forEachPush_cons, Hbody, IH. cbn [fst snd flat_map].
    now rewrite <- app_assoc.
Qed.

Lemma map_of_flat_map {A B C : Type} (f : B -> C) (g : A -> list B)
      (l : list A) :
  flat_map (fun x => map f (g x)) l = map f (flat_map g l).
Proof.
  induction l as [|x l IH]; simpl; [reflexivity|].
  now rewrite map_app, IH.
Qed.

Lemma convertSubToken_writer (images : ImageMap) (subToken : SubToken)
      (log : Log) :
  convertSubToken images subToken log
  = (fst (convertSubToken images subToken []),
     log ++ map (imageEntry images) (subTokenRefs subToken)).
Proof.
  destruct subToken as [href| | | | | | |]; simpl; unfold ret;
    rewrite ?app_nil_r; try reflexivity.
  unfold imageEntry. destruct (resolveImage images href); reflexivity.
Qed.

Lemma convertToken_writer (images : ImageMap) (token : Token) (log : Log) :
  convertToken images token log
  = (fst (convertToken images token []),
     log ++ map (imageEntry images) (tokenRefs token)).
Proof.
  destruct token as [depth text|[subs|] text|items|text| |[[|c t]|]];
    simpl; unfold ret, bind; rewrite ?app_nil_r; try reflexivity.
  rewrite (forEachPush_writer
             (convertSubToken images)
             (fun s => fst (convertSubToken images s []))
             (fun s => map (imageEntry images) (subTokenRefs s))
             (convertSubToken_writer images) subs log).
  rewrite (forEachPush_writer
             (convertSubToken images)
             (fun s => fst (convertSubToken images s []))
             (fun s => map (imageEntry images) (subTokenRefs s))
             (convertSubToken_writer images) subs []).
  cbn [fst snd tokenRefs]. now rewrite map_of_flat_map.
Qed.

(** The compiler as a function of the tokens alone: the paragraphs of
    each token, and one log entry for each image reference. *)
Lemma convertTokens_writer (images : ImageMap) (tokens : list Token)
      (log : Log) :
  convertTokens images tokens log
  = (flat_map (fun token => fst (convertToken images token [])) tokens,
     log ++ map (imageEntry images) (imageRefs tokens)).
Proof.
  unfold convertTokens, imageRefs.
  rewrite (forEachPush_writer
             (convertToken images)
             (fun t => fst (convertToken images t []))
             (fun t => map (imageEntry images) (tokenRefs t))
             (convertToken_writer images) tokens log).
  now rewrite map_of_flat_map.
Qed.

(** X6.  Compiling logs exactly one entry for each image child of the
    token stream, in document order, a success for a reference that
    resolves and a warning for one that does not, after what was logged
    before; tokens without images log nothing. *)
Theorem compiler_logs_one_entry_per_image
        (images : ImageMap) (tokens : list Token) (log : Log) :
  snd (convertTokens images tokens log)
  = log ++ map (imageEntry images) (imageRefs tokens)
  /\ length (snd (convertTokens images tokens log))
     = length log + length (imageRefs tokens)
  /\ Forall (fun entry => snd entry = LSuccess \/ snd entry = LWarning)
            (map (imageEntry images) (imageRefs tokens)).
Proof.
  rewrite convertTokens_writer. cbn [snd].
  split; [reflexivity|]. split.
  - now rewrite length_app, length_map.
  - apply Forall_forall. intros entry Hin. apply in_map_iff in Hin.
    destruct Hin as (href & <- & _). unfold imageEntry.
    destruct (resolveImage images href); simpl; auto.
Qed.

(** X8.  The document is built token by token: the paragraphs of a
    stream are those of its first part followed by those of the rest,
    whatever has been logged, and their number is the sum over the
    tokens of one per heading, paragraph, code block and rule, one per
    list item, and one per other token with non-empty text. *)
Theorem document_is_built_token_by_token
        (images : ImageMap) (front back : list Token) (log log1 log2 : Log) :
  fst (convertTokens images (front ++ back) log)
  = fst (convertTokens images front log1)
      ++ fst (convertTokens images back log2)
  /\ length (fst (convertTokens images (front ++ back) log))
     = list_sum (map blockCount (front ++ back)).
Proof.
  rewrite !convertTokens_writer. cbn [fst]. split.
  - apply flat_map_app.
  - induction (front ++ back) as [|token tokens IH]; [reflexivity|].
    cbn [flat_map map list_sum]. rewrite length_app, IH. f_equal.
    destruct token as [depth text|[subs|] text|items|text| |[[|c t]|]];
      try reflexivity.
    + simpl. unfold bind, ret.
      now destruct (forEachPush (convertSubToken images) subs []).
    + simpl. now rewrite length_map.
Qed.

(** X9.  A paragraph gets one child for each inline token of a type the
    loop knows, in order, and none for any other inline token. *)
Theorem paragraph_children_of_known_tokens
        (images : ImageMap) (subTokens : list SubToken) (text : jsstring)
        (log : Log) :
  exists children,
    fst (convertToken images (TParagraph (Some subTokens) text) log)
    = [bodyParagraph children]
    /\ children
       = flat_map (fun s => fst (convertSubToken images s []))
                  (filter knownSubToken subTokens)
    /\ length children = length (filter knownSubToken subTokens).
Proof.
  rewrite CompilerProofs.convertToken_paragraph. cbn [fst].
  rewrite (forEachPush_writer
             (convertSubToken images)
             (fun s => fst (convertSubToken images s []))
             (fun s => map (imageEntry images) (subTokenRefs s))
             (convertSubToken_writer images) subTokens log).
  cbn [fst]. eexists; split; [reflexivity|].
  assert (Hone : forall s,
             length (fst (convertSubToken images s []))
             = if knownSubToken s then 1 else 0).
  { intros [href| | | | | | |]; try reflexivity.
    simpl. now destruct (resolveImage images href). }
  induction subTokens as [|s subs [IH1 IH2]]; [split; reflexivity|].
  cbn [filter flat_map]. specialize (Hone s).
  destruct (knownSubToken s).
  - cbn [flat_map]. split; [now rewrite IH1|].
    rewrite length_app, Hone, IH2. reflexivity.
  - destruct (fst (convertSubToken images s [])); [|discriminate].
    split; [exact IH1 | exact IH2].
Qed.

(** X10.  The runs of a code block: one more than the text has line
    feeds, none of them containing a line feed. *)
Theorem code_runs_and_line_feeds (text : jsstring) :
  length (codeRuns text) = 1 + countChar newline text
  /\ Forall (fun run => exists line, run_text run = Some line
                                     /\ ~ In newline line)
            (codeRuns text).
Proof.
  unfold codeRuns, mapi. split.
  - now rewrite mapi_from_length, split_length.
  - pose proof (split_pieces newline text) as Hall.
    generalize 0. induction Hall as [|line lines Hline Hlines IH];
      intros index; simpl; constructor; [|apply IH].
    exists line. split; [reflexivity | exact Hline].
Qed.

Section Packing.

Variable Blob : Type.
Variable marked_lexer : jsstring -> list Token.
Variable Packer_toBlob : Document -> Blob + JsThrown.

Lemma convertToDocx_unfold
      (markdown : jsstring) (images : ImageMap) (log : Log) :
  convertToDocx marked_lexer Packer_toBlob markdown images log
  = (Packer_toBlob
       (mkDocument (fst (convertTokens images (marked_lexer markdown) []))),
     log ++ initializingEntry
         :: map (imageEntry images) (imageRefs (marked_lexer markdown))
         ++ [finalizingEntry]).
Proof.
  unfold convertToDocx, bind, onLog, ret.
  rewrite !convertTokens_writer. cbn [fst snd].
  unfold initializingEntry, finalizingEntry.
  now rewrite <- !app_assoc.
Qed.

(** X7.  [convertToDocx] frames the image entries of the compiler by its
    two info entries and logs no error of its own; the blob, or the
    value the packer throws, is that of the document compiled from the
    tokens, and the last entry is logged in either case. *)
Theorem convertToDocx_log_and_result
        (markdown : jsstring) (images : ImageMap) (log : Log) :
  let tokens := marked_lexer markdown in
  let added :=
    initializingEntry :: map (imageEntry images) (imageRefs tokens)
                      ++ [finalizingEntry] in
  convertToDocx marked_lexer Packer_toBlob markdown images log
  = (Packer_toBlob (mkDocument (fst (convertTokens images tokens []))),
     log ++ added)
  /\ Forall (fun entry => snd entry <> LError) added.
Proof.
  cbv zeta. split.
  - apply convertToDocx_unfold.
  - constructor; [discriminate|]. apply Forall_app. split.
    + apply Forall_forall. intros entry Hin. apply in_map_iff in Hin.
      destruct Hin as (href & <- & _). unfold imageEntry.
      destruct (resolveImage images href); discriminate.
    + repeat constructor. discriminate.
Qed.

End Packing.

End CompilerMore.

(* ================================================================== *)
(** * More on the extractor and its clean-up *)
(* ================================================================== *)

Module ExtractorMore.
Import MdConverter ExtractorProofs EscapeProofs PlaceholderProofs.

(** X11.  When the decoder resolves, the conversion returns its value
    after the two clean-up steps; the log gains the analysing entry, one
    entry per image, and the two closing entries, none at error
    level. *)
Theorem extraction_success
        (decoder : ArrayBuffer -> list jsstring -> Mammoth)
        (arrayBuffer : ArrayBuffer) (log : Log) (value : jsstring) :
  outcome (fst (await (decoder arrayBuffer styleMap) 1 log)) = Value value ->
  let n :=
    length (supplied (fst (await (decoder arrayBuffer styleMap) 1 log))) in
  convertDocxToMd decoder arrayBuffer log
  = (inl (postProcess value),
     log ++ analyzingEntry :: map assetEntry (seq 1 n)
         ++ closingEntries (Value value))
  /\ Forall (fun entry => snd entry <> LError)
            (analyzingEntry :: map assetEntry (seq 1 n)
                            ++ closingEntries (Value value)).
Proof.
  intros Hout n. subst n.
  destruct (await_numbers (decoder arrayBuffer styleMap) 1 log)
    as (_ & _ & _ & Hi). cbv zeta in Hi.
  rewrite convertDocxToMd_unfold. cbv zeta. rewrite <- Hi, Hout.
  split; [reflexivity|].
  constructor; [discriminate|]. apply Forall_app. split.
  - apply Forall_forall. intros entry Hin. apply in_map_iff in Hin.
    destruct Hin as (id & <- & _). discriminate.
  - repeat constructor; discriminate.
Qed.

Lemma extraction_success_witness :
  convertDocxToMd
    (fun _ _ => ImageElement (fun src => Resolves (asImage src)))
    [x50%byte; x4b%byte] []
  = (inl (postProcess (asImage (placeholder 1))),
     [] ++ analyzingEntry :: map assetEntry (seq 1 1)
        ++ closingEntries (Value (asImage (placeholder 1)))).
Proof.
  apply (@extraction_success
           (fun _ _ => ImageElement (fun src => Resolves (asImage src)))
           [x50%byte; x4b%byte] [] (asImage (placeholder 1))).
  reflexivity.
Defined.

Lemma dropBackslashBefore_only_backslashes (class : ascii -> bool)
      (s : jsstring) :
  filter (fun c => negb (Ascii.eqb c backslash))
         (dropBackslashBefore class s)
  = filter (fun c => negb (Ascii.eqb c backslash)) s
  /\ length (dropBackslashBefore class s) <= length s.
Proof.
  induction s as [|c t [IH1 IH2]]; [split; reflexivity|].
  cbn [dropBackslashBefore].
  destruct (Ascii.eqb c backslash) eqn:E; cbn [andb].
  - destruct (nextIn class t); cbn [filter length]; rewrite E; cbn [negb];
      split; try exact IH1; lia.
  - cbn [filter length]. rewrite E. cbn [negb]. split; [now rewrite IH1 | lia].
Qed.

(** X12.  The escape clean-up only ever deletes backslashes: the other
    characters of the text come out unchanged and in order, the text
    never grows, and a text without backslash is returned as it is. *)
Theorem escape_cleanup_only_deletes_backslashes (s : jsstring) :
  filter (fun c => negb (Ascii.eqb c backslash)) (escapeCleanup s)
  = filter (fun c => negb (Ascii.eqb c backslash)) s
  /\ length (escapeCleanup s) <= length s
  /\ (~ In backslash s -> escapeCleanup s = s).
Proof.
  rewrite escapeCleanup_refines. unfold spec_escapeCleanup.
  destruct (dropBackslashBefore_only_backslashes escapable s) as [H1 H2].
  split; [exact H1|]. split; [exact H2|].
  intros Hno. rewrite <- (app_nil_r s) at 1.
  rewrite dropBackslashBefore_copy; [now rewrite app_nil_r|].
  apply Forall_forall. intros x Hx Heq. subst. contradiction.
Qed.

(** X13.  The escape clean-up is not idempotent: of two backslashes
    before a listed character the first pass deletes the second one
    only, and a second pass deletes the one that is left. *)
Theorem escape_cleanup_is_not_idempotent (c : ascii) (rest : jsstring) :
  escapable c = true ->
  escapeCleanup (backslash :: backslash :: c :: rest)
  = backslash :: c :: escapeCleanup rest
  /\ escapeCleanup (escapeCleanup (backslash :: backslash :: c :: rest))
     = c :: escapeCleanup (escapeCleanup rest)
  /\ escapeCleanup (escapeCleanup (backslash :: backslash :: c :: rest))
     <> escapeCleanup (backslash :: backslash :: c :: rest).
Proof.
  intros Hc.
  assert (Hcb : Ascii.eqb c backslash = false).
  { destruct (Ascii.eqb c backslash) eqn:E; [|reflexivity].
    apply Ascii.eqb_eq in E. subst c. discriminate Hc. }
  assert (H1 : escapeCleanup (backslash :: backslash :: c :: rest)
               = backslash :: c :: escapeCleanup rest).
  { rewrite !escapeCleanup_refines. unfold spec_escapeCleanup.
    cbn [dropBackslashBefore nextIn]. rewrite Ascii.eqb_refl, Hc, Hcb.
    reflexivity. }
  assert (H2 : escapeCleanup (backslash :: c :: escapeCleanup rest)
               = c :: escapeCleanup (escapeCleanup rest)).
  { rewrite (escapeCleanup_refines (backslash :: _)).
    rewrite (escapeCleanup_refines (escapeCleanup rest)).
    unfold spec_escapeCleanup.
    cbn [dropBackslashBefore nextIn]. rewrite Ascii.eqb_refl, Hc, Hcb.
    reflexivity. }
  split; [exact H1|]. rewrite H1. split; [exact H2|].
  rewrite H2. intros H. injection H as Heq _.
  rewrite Heq, Ascii.eqb_refl in Hcb. discriminate.
Qed.

Lemma escape_cleanup_is_not_idempotent_witness :
  escapeCleanup (backslash :: backslash :: "_"%char :: lit "id")
  = backslash :: "_"%char :: escapeCleanup (lit "id")
  /\ escapeCleanup
       (escapeCleanup (backslash :: backslash :: "_"%char :: lit "id"))
     = "_"%char :: escapeCleanup (escapeCleanup (lit "id")).
Proof.
  split;
    apply (@escape_cleanup_is_not_idempotent "_"%char (lit "id"));
    reflexivity.
Defined.

Lemma countOcc_occurrence (t a b : jsstring) :
  t <> [] -> 1 <= countOcc t (a ++ t ++ b).
Proof.
  intros Hne. induction a as [|x a IH].
  - simpl. destruct t as [|y t]; [congruence|].
    change ((y :: t) ++ b) with (y :: (t ++ b)). cbn [countOcc].
    change (y :: (t ++ b)) with ((y :: t) ++ b).
    rewrite startsWith_app. lia.
  - change ((x :: a) ++ t ++ b) with (x :: (a ++ t ++ b)).
    cbn [countOcc]. lia.
Qed.

(** Where a placeholder expression matches, the placeholder token
    occurs. *)
Lemma match_needs_token (opening closing before s : jsstring)
      (found : jsstring * nat) :
  opening = before ++ placeholderToken ->
  matchPlaceholder opening closing s = Some found ->
  1 <= countOcc placeholderToken s.
Proof.
  intros Hop. unfold matchPlaceholder.
  destruct (stripPrefix opening s) as [r|] eqn:E; [|discriminate].
  intros _. apply stripPrefix_Some in E. subst s opening.
  rewrite <- app_assoc. apply countOcc_occurrence. discriminate.
Qed.

Lemma replaceAll_without_token (opening closing before s : jsstring) :
  opening = before ++ placeholderToken ->
  countOcc placeholderToken s = 0 ->
  replaceAll (matchPlaceholder opening closing) s = s.
Proof.
  intros Hop. unfold replaceAll.
  induction s as [|c t IH]; intros Hcount; [reflexivity|].
  rewrite replaceGo_scan.
  destruct (matchPlaceholder opening closing (c :: t)) as [found|] eqn:E.
  - pose proof (match_needs_token _ _ _ Hop E). lia.
  - f_equal. apply IH. cbn [countOcc] in Hcount. lia.
Qed.

(** X14.  Markdown that holds no placeholder token passes step 1
    unchanged, so that the clean-up of such a text is the escape
    clean-up alone. *)
Theorem text_without_placeholder_is_untouched (markdown : jsstring) :
  countOcc placeholderToken markdown = 0 ->
  rewritePlaceholders markdown = markdown
  /\ postProcess markdown = escapeCleanup markdown.
Proof.
  intros Hcount.
  assert (H : rewritePlaceholders markdown = markdown).
  { unfold rewritePlaceholders, srcAttributeRe, imageSyntaxRe.
    rewrite (@replaceAll_without_token
               srcAttributeOpening srcAttributeClosing
               (lit "src=" ++ [dquote]) markdown); [|reflexivity|exact Hcount].
    apply (@replaceAll_without_token
             imageSyntaxOpening imageSyntaxClosing (lit "![](") markdown);
      [reflexivity | exact Hcount]. }
  split; [exact H|]. unfold postProcess. now rewrite H.
Qed.

Lemma text_without_placeholder_is_untouched_witness :
  rewritePlaceholders (lit "See ![chart](images/chart.png) and src=x")
  = lit "See ![chart](images/chart.png) and src=x".
Proof.
  apply (@text_without_placeholder_is_untouched
           (lit "See ![chart](images/chart.png) and src=x")).
  reflexivity.
Defined.

Lemma to_uint_nonnil (n : nat) : Nat.to_uint n <> Decimal.Nil.
Proof.
  rewrite <- (DecimalNat.Unsigned.of_to n) at 1.
  rewrite DecimalNat.Unsigned.to_of. apply DecimalFacts.unorm_nonnil.
Qed.

Lemma decimal_inj (a b : nat) : decimal a = decimal b -> a = b.
Proof.
  unfold decimal, lit. intros H.
  apply (f_equal string_of_list_ascii) in H.
  rewrite !string_of_list_ascii_of_string in H.
  apply (f_equal NilZero.uint_of_string) in H.
  rewrite !NilZero.usu in H by apply to_uint_nonnil.
  inversion H as [H']. now apply DecimalNat.Unsigned.to_uint_inj.
Qed.

Lemma placeholder_inj (a b : nat) : placeholder a = placeholder b -> a = b.
Proof.
  unfold placeholder. intros H. apply app_inv_head in H.
  now apply decimal_inj.
Qed.

(** X15.  Within one extraction call no two images get the same
    placeholder: different numbers give different placeholders, and the
    placeholders handed to the decoder in one run are pairwise
    distinct. *)
Theorem placeholders_are_distinct
        (decoder : ArrayBuffer -> list jsstring -> Mammoth)
        (arrayBuffer : ArrayBuffer) (log : Log) :
  NoDup (supplied (fst (await (decoder arrayBuffer styleMap) 1 log)))
  /\ (forall a b, placeholder a = placeholder b -> a = b).
Proof.
  split; [|exact placeholder_inj].
  destruct (await_numbers (decoder arrayBuffer styleMap) 1 log) as (H & _).
  cbv zeta in H. rewrite H.
  generalize (seq_NoDup
                (length (supplied
                           (fst (await (decoder arrayBuffer styleMap) 1 log))))
                1).
  generalize (seq 1 (length (supplied
                               (fst (await (decoder arrayBuffer styleMap)
                                           1 log))))).
  intros l Hl. induction Hl as [|x l Hx Hl IH]; simpl; constructor; auto.
  intros Hin. apply in_map_iff in Hin. destruct Hin as (y & Hy & Hyl).
  apply placeholder_inj in Hy. subst. contradiction.
Qed.

End ExtractorMore.

(* ================================================================== *)
(** * The polisher and the application *)
(* ================================================================== *)

Module AppProofs.
Import DocxConverter MdConverter AiService App TokenStream.
Import ResolverProofs ResolverMore.

(** X16.  The polisher fails open.  A non-empty text in the response of
    the service is returned as it is; a response without text or with
    the empty text gives back the text the polisher was given, so a
    non-empty document is never replaced by an empty one; the console
    gains an entry exactly when the service throws, and then the given
    text comes back unchanged.  The text sent to the service ends with
    the given text, verbatim. *)
Theorem polisher_fails_open
        (generateContent : jsstring -> jsstring -> option jsstring + JsThrown)
        (text : jsstring) (console : Console) :
  let result := polishMarkdown generateContent text console in
  let answer := generateContent modelName (contentsFor text) in
  (forall reply,
      answer = inl (Some reply) -> reply <> [] -> result = (reply, console))
  /\ (answer = inl None \/ answer = inl (Some []) -> result = (text, console))
  /\ (forall error, answer = inr error ->
        result = (text, console ++ [(lit "AI Polishing failed:", error)]))
  /\ (fst result = text \/ answer = inl (Some (fst result)))
  /\ (text <> [] -> fst result <> [])
  /\ (forall reply, answer = inl reply -> snd result = console)
  /\ endsWith (contentsFor text) text = true.
Proof.
  cbv zeta. unfold polishMarkdown.
  destruct (generateContent modelName (contentsFor text))
    as [[[|c reply]|]|error]; cbn [fst snd];
    (split; [intros r H Hne; inversion H; subst;
             solve [reflexivity | contradiction]|]);
    (split; [intros [H|H]; inversion H; reflexivity|]);
    (split; [intros e H; inversion H; reflexivity|]);
    (split; [auto|]); (split; [auto; discriminate|]);
    (split; [intros r H; inversion H; reflexivity|]);
    apply endsWith_suffix; unfold contentsFor; eexists;
    rewrite !app_comm_cons, !app_assoc; reflexivity.
Qed.

Lemma polisher_fails_open_witness :
  polishMarkdown (fun _ _ => inl (Some (lit "# Title"))) (lit "#Title") []
  = (lit "# Title", [])
  /\ polishMarkdown (fun _ _ => inl (Some [])) (lit "# Title") []
     = (lit "# Title", [])
  /\ polishMarkdown (fun _ _ => inr (ErrorObject (lit "quota")))
                    (lit "# Title") []
     = (lit "# Title",
        [] ++ [(lit "AI Polishing failed:", ErrorObject (lit "quota"))]).
Proof.
  split; [|split].
  - apply (polisher_fails_open
             (fun _ _ => inl (Some (lit "# Title"))) (lit "#Title") []);
      [reflexivity | discriminate].
  - apply (polisher_fails_open (fun _ _ => inl (Some [])) (lit "# Title") []).
    right. reflexivity.
  - apply (polisher_fails_open
             (fun _ _ => inr (ErrorObject (lit "quota"))) (lit "# Title") []).
    reflexivity.
Defined.

Lemma split_at_first (sep : ascii) (a t : jsstring) :
  ~ In sep a -> split sep (a ++ sep :: t) = a :: split sep t.
Proof.
  induction a as [|x a IH]; intros Hno; simpl.
  - now rewrite Ascii.eqb_refl.
  - destruct (Ascii.eqb x sep) eqn:E.
    + apply Ascii.eqb_eq in E. subst. exfalso; apply Hno; now left.
    + rewrite IH; [reflexivity|]. intros H; apply Hno; now right.
Qed.

(** X17.  The name of the downloaded file is cut at the first period of
    the name of the source file: a name [stem.rest] gives [stem],
    whatever further periods [rest] holds, a name without period is kept
    whole, and the stem never contains a period. *)
Theorem download_name_is_cut_at_first_period (stem rest : jsstring) :
  ~ In "."%char stem ->
  stemOf (stem ++ "."%char :: rest) = stem
  /\ stemOf stem = stem
  /\ (forall fileName, ~ In "."%char (stemOf fileName)).
Proof.
  intros Hno. unfold stemOf. split; [|split].
  - now rewrite split_at_first.
  - now rewrite split_without_separator.
  - intros fileName.
    pose proof (split_pieces "."%char fileName) as Hall.
    destruct (split "."%char fileName) as [|p ps]; [simpl; auto|].
    inversion Hall; subst. assumption.
Qed.

Lemma download_name_is_cut_at_first_period_witness :
  stemOf (lit "report" ++ "."%char :: lit "v1.2.final.md") = lit "report".
Proof.
  apply (@download_name_is_cut_at_first_period
           (lit "report") (lit "v1.2.final.md")).
  vm_compute; intuition discriminate.
Defined.

Lemma fileMap_get_absent (images : FileMap) (key : jsstring) :
  ~ In key (map fst images) -> fileMap_get images key = None.
Proof.
  induction images as [|[k v] rest IH]; simpl; [reflexivity|].
  intros Hno. destruct (str_eqb k key) eqn:E.
  - apply str_eqb_eq in E. subst. exfalso; apply Hno; now left.
  - apply IH. intros H; apply Hno; now right.
Qed.

Lemma imgBuffers_fold (images : FileMap) :
  NoDup (map fst images) ->
  forall (acc : ImageMap) (key : jsstring),
    map_get
      (fold_left
         (fun imgBuffers entry =>
            match arrayBuffer (snd entry) with
            | Some buffer => map_set imgBuffers (fst entry) buffer
            | None => imgBuffers
            end)
         images acc)
      key
    = match fileMap_get images key with
      | Some data =>
          match arrayBuffer data with
          | Some buffer => Some buffer
          | None => map_get acc key
          end
      | None => map_get acc key
      end.
Proof.
  induction images as [|[k v] rest IH]; intros Hnd acc key;
    [reflexivity|].
  inversion Hnd as [|? ? Hnot Hrest]; subst.
  cbn [fold_left fst snd fileMap_get]. rewrite (IH Hrest).
  destruct (str_eqb k key) eqn:E.
  - apply str_eqb_eq in E. subst k.
    rewrite (fileMap_get_absent _ _ Hnot).
    destruct (arrayBuffer v); [apply map_get_set_same | reflexivity].
  - assert (Hne : k <> key).
    { intros ->. now rewrite str_eqb_refl in E. }
    destruct (arrayBuffer v) as [b|];
      rewrite ?(map_get_set_other _ b Hne); reflexivity.
Qed.

Lemma imgBuffers_fold_wf (images : FileMap) :
  forall acc : ImageMap,
    map_wf acc ->
    map_wf
      (fold_left
         (fun imgBuffers entry =>
            match arrayBuffer (snd entry) with
            | Some buffer => map_set imgBuffers (fst entry) buffer
            | None => imgBuffers
            end)
         images acc).
Proof.
  induction images as [|[k v] rest IH]; intros acc Hwf; [exact Hwf|].
  cbn [fold_left fst snd]. apply IH.
  destruct (arrayBuffer v); [now apply map_set_wf | exact Hwf].
Qed.

(** X18.  The map handed to the converter holds exactly the uploaded
    images whose bytes have been read, under their keys: an upload
    without bytes is left out, and so is every unknown key; and the map
    holds each key once. *)
Theorem converter_sees_the_loaded_images (images : FileMap) (key : jsstring) :
  NoDup (map fst images) ->
  map_get (imgBuffersOf images) key
  = match fileMap_get images key with
    | Some data => arrayBuffer data
    | None => None
    end
  /\ map_wf (imgBuffersOf images).
Proof.
  intros Hnd. unfold imgBuffersOf. split.
  - rewrite (imgBuffers_fold images Hnd). simpl.
    destruct (fileMap_get images key) as [data|]; [|reflexivity].
    now destruct (arrayBuffer data).
  - apply imgBuffers_fold_wf. constructor.
Qed.

Lemma converter_sees_the_loaded_images_witness :
  map_get
    (imgBuffersOf
       [(lit "a.png",
         mkFileData (mkFile (lit "a.png") []) None None None);
        (lit "b.png",
         mkFileData (mkFile (lit "b.png") []) None None (Some [x42%byte]))])
    (lit "a.png")
  = match
      fileMap_get
        [(lit "a.png",
          mkFileData (mkFile (lit "a.png") []) None None None);
         (lit "b.png",
          mkFileData (mkFile (lit "b.png") []) None None (Some [x42%byte]))]
        (lit "a.png")
    with
    | Some data => arrayBuffer data
    | None => None
    end.
Proof.
  apply (@converter_sees_the_loaded_images
           [(lit "a.png",
             mkFileData (mkFile (lit "a.png") []) None None None);
            (lit "b.png",
             mkFileData (mkFile (lit "b.png") []) None None
                        (Some [x42%byte]))]
           (lit "a.png")).
  repeat constructor; vm_compute; intuition discriminate.
Defined.

(** Reading the state variables after a sequence of setters. *)
Ltac fields :=
  cbv [setLogs setStatus setConsole setLastOutput setImages addLog
       downloadFile mode sourceFile images logs status isAiEnabled
       lastOutput console downloads];
  cbn [fst snd].

(** A log that has grown. *)
Ltac grown := rewrite <- ?app_assoc; eexists; reflexivity.

Lemma grown_then (before whole : Log) (last : LogEntry) :
  (exists added, whole = before ++ added) ->
  exists earlier, whole ++ [last] = before ++ earlier ++ [last].
Proof.
  intros [added ->]. exists added. now rewrite app_assoc.
Qed.

Section Pipeline.

Import Polishing ExtractorProofs.

Variable Blob : Type.
Variable marked_lexer : jsstring -> list Token.
Variable Packer_toBlob : Document -> Blob + JsThrown.
Variable mammoth_convertToMarkdown : ArrayBuffer -> list jsstring -> Mammoth.
Variable generateContent : jsstring -> jsstring -> option jsstring + JsThrown.

Local Abbreviation run :=
  (startConversion marked_lexer Packer_toBlob mammoth_convertToMarkdown
                   generateContent).

(** The markdown branch, settled: the world before the download and what
    the packer decided. *)
Lemma markdownToWord_unfold (source : FileData) (aiEnabled : bool)
      (uploaded : FileMap) (w : World Blob) :
  let text := match content source with Some t => t | None => [] end in
  let text' := polishedText generateContent aiEnabled text (console w) in
  let imgBuffers := imgBuffersOf uploaded in
  let before :=
    mkWorld (mode w) (sourceFile w) (images w)
            (logs w
               ++ aiEntries aiEnabled
                    (lit "AI Polishing enabled. Thinking...")
               ++ initializingEntry
               :: map (imageEntry imgBuffers) (imageRefs (marked_lexer text'))
               ++ [finalizingEntry])
            GENERATING (isAiEnabled w) (lastOutput w)
            (consoleAfterPolish generateContent aiEnabled text (console w))
            (downloads w) in
  markdownToWord marked_lexer Packer_toBlob generateContent
                 source aiEnabled uploaded w
  = match Packer_toBlob
            (mkDocument
               (fst (convertTokens imgBuffers (marked_lexer text') [])))
    with
    | inl blob =>
        (downloadFile
           (PackedDocument blob (stemOf (name (file source)) ++ lit ".docx"))
           before,
         None)
    | inr error => (before, Some error)
    end.
Proof.
  destruct w as [m sf im lg st ai lo co dl].
  cbv zeta. unfold markdownToWord, polishedText, consoleAfterPolish,
    aiEntries, polish.
  destruct aiEnabled.
  - fields.
    destruct (polishMarkdown generateContent
                match content source with Some t => t | None => [] end
                co) as [polished console'].
    fields. rewrite CompilerMore.convertToDocx_unfold.
    rewrite <- app_assoc.
    destruct (Packer_toBlob _); reflexivity.
  - fields. rewrite CompilerMore.convertToDocx_unfold.
    destruct (Packer_toBlob _); reflexivity.
Qed.

(** The Word branch with the bytes of the source at hand. *)
Lemma wordToMarkdown_unfold (source : FileData) (aiEnabled : bool)
      (buffer : ArrayBuffer) (w : World Blob) :
  arrayBuffer source = Some buffer ->
  let r := fst (await (mammoth_convertToMarkdown buffer styleMap) 1 []) in
  let extracted :=
    logs w ++ analyzingEntry
           :: map assetEntry (seq 1 (length (supplied r)))
           ++ closingEntries (outcome r) in
  wordToMarkdown mammoth_convertToMarkdown generateContent source aiEnabled w
  = match outcome r with
    | Thrown error =>
        (mkWorld (mode w) (sourceFile w) (images w) extracted GENERATING
                 (isAiEnabled w) (lastOutput w) (console w) (downloads w),
         Some error)
    | Value value =>
        let markdown :=
          polishedText generateContent aiEnabled (postProcess value)
                       (console w) in
        (mkWorld (mode w) (sourceFile w) (images w)
                 (extracted
                    ++ aiEntries aiEnabled
                         (lit "AI Enhancing generated Markdown..."))
                 (if aiEnabled then PARSING else GENERATING)
                 (isAiEnabled w) (Some markdown)
                 (consoleAfterPolish generateContent aiEnabled
                                     (postProcess value) (console w))
                 (downloads w
                    ++ [MarkdownText Blob markdown
                          (stemOf (name (file source)) ++ lit ".md")]),
         None)
    end.
Proof.
  intros Hbuf. destruct w as [m sf im lg st ai lo co dl].
  cbv zeta. unfold wordToMarkdown. rewrite Hbuf. fields.
  rewrite convertDocxToMd_unfold. cbv zeta.
  destruct (outcome (fst (await (mammoth_convertToMarkdown buffer styleMap)
                                1 [])))
    as [value|error]; cbn [resultOf]; [|reflexivity].
  unfold polishedText, consoleAfterPolish, aiEntries, polish.
  destruct aiEnabled.
  - fields.
    destruct (polishMarkdown generateContent (postProcess value) co)
      as [polished console'].
    fields. reflexivity.
  - fields. now rewrite app_nil_r.
Qed.

(** X19.  A conversion never leaves the pipeline half done.  Without a
    source file it only logs an error.  With one, it ends either in
    [COMPLETED], with exactly one more file downloaded and the success
    entry logged last, or in [ERROR], with no file downloaded, no last
    output, the thrown value on the console and its message logged last
    at error level.  In every case the log only grows, and the mode, the
    source, the uploads and the AI switch are as before. *)
Theorem conversion_settles (w : World Blob) :
  let w' := run w in
  mode w' = mode w /\ sourceFile w' = sourceFile w
  /\ images w' = images w /\ isAiEnabled w' = isAiEnabled w
  /\ (exists added, logs w' = logs w ++ added)
  /\ match sourceFile w with
     | None =>
         status w' = status w /\ downloads w' = downloads w
         /\ lastOutput w' = lastOutput w
         /\ logs w' = logs w ++ [(lit "Source file missing.", LError)]
     | Some _ =>
         (status w' = COMPLETED
          /\ (exists d, downloads w' = downloads w ++ [d])
          /\ exists earlier, logs w' = earlier ++ [successEntry])
         \/ (status w' = ERROR
             /\ downloads w' = downloads w
             /\ lastOutput w' = None
             /\ exists error earlier c,
                 logs w' = earlier ++ [failureEntry error]
                 /\ console w' = c ++ [([], error)])
     end.
Proof.
  destruct w as [m sf im lg st ai lo co dl].
  cbv zeta. unfold startConversion. fields.
  destruct sf as [source|].
  2:{ do 4 (split; [reflexivity|]). split; [eexists; reflexivity|].
      repeat split; reflexivity. }
  destruct m.
  - rewrite markdownToWord_unfold. cbv zeta.
    destruct (Packer_toBlob _) as [blob|error]; fields;
      (do 4 (split; [reflexivity|])); (split; [grown|]).
    + left. split; [reflexivity|]. split; eexists; reflexivity.
    + right. do 3 (split; [reflexivity|]).
      exists error. do 2 eexists. split; reflexivity.
  - destruct (arrayBuffer source) as [buffer|] eqn:Hbuf.
    + rewrite (wordToMarkdown_unfold _ _ _ Hbuf). cbv zeta.
      destruct (outcome _) as [value|error]; fields;
        (do 4 (split; [reflexivity|])); (split; [grown|]).
      * left. split; [reflexivity|]. split; eexists; reflexivity.
      * right. do 3 (split; [reflexivity|]).
        exists error. do 2 eexists. split; reflexivity.
    + unfold wordToMarkdown. rewrite Hbuf. fields.
      (do 4 (split; [reflexivity|])). (split; [grown|]).
      right. do 3 (split; [reflexivity|]).
      eexists. do 2 eexists. split; reflexivity.
Qed.

(** X20.  From markdown to Word only the packer can make the conversion
    fail: whatever the images, the tokens and the answer of the polisher
    are, the run ends in [COMPLETED] with the packed document downloaded
    under the stem of the source name and [.docx] when the packer
    returns a blob, and in [ERROR] with the message of the value it
    throws logged right after the finalizing entry when it throws.  A
    source without content is converted as the empty text. *)
Theorem markdown_to_word_fails_only_in_the_packer
        (w : World Blob) (source : FileData) :
  mode w = MD_TO_DOCX -> sourceFile w = Some source ->
  let text := match content source with Some t => t | None => [] end in
  let text' :=
    polishedText generateContent (isAiEnabled w) text (console w) in
  let document :=
    mkDocument
      (fst (convertTokens (imgBuffersOf (images w)) (marked_lexer text')
                          [])) in
  match Packer_toBlob document with
  | inl blob =>
      status (run w) = COMPLETED
      /\ downloads (run w)
         = downloads w
             ++ [PackedDocument blob
                   (stemOf (name (file source)) ++ lit ".docx")]
  | inr error =>
      status (run w) = ERROR
      /\ downloads (run w) = downloads w
      /\ exists earlier,
          logs (run w) = earlier ++ [finalizingEntry; failureEntry error]
  end
  /\ lastOutput (run w) = None.
Proof.
  intros Hmode Hsrc. destruct w as [m sf im lg st ai lo co dl].
  cbn [mode sourceFile] in Hmode, Hsrc. subst m sf.
  cbv zeta. unfold startConversion. fields.
  rewrite markdownToWord_unfold. cbv zeta. fields.
  destruct (Packer_toBlob _) as [blob|error]; fields.
  - repeat split; reflexivity.
  - split; [|reflexivity]. do 2 (split; [reflexivity|]).
    rewrite app_comm_cons, !app_assoc, <- app_assoc.
    eexists. reflexivity.
Qed.

(** X21.  A decoding failure is reported twice: the extractor logs
    [Extraction failed: m] and rethrows, and the pipeline catches the
    same value and logs [Failure: m] right after it.  The run ends in
    [ERROR], nothing is downloaded, there is no last output, and the
    value is written to the console once. *)
Theorem decode_failure_is_reported_twice
        (w : World Blob) (source : FileData) (buffer : ArrayBuffer)
        (error : JsThrown) :
  mode w = DOCX_TO_MD -> sourceFile w = Some source ->
  arrayBuffer source = Some buffer ->
  outcome (fst (await (mammoth_convertToMarkdown buffer styleMap) 1 []))
  = Thrown error ->
  status (run w) = ERROR
  /\ lastOutput (run w) = None
  /\ downloads (run w) = downloads w
  /\ console (run w) = console w ++ [([], error)]
  /\ exists earlier,
      logs (run w)
      = logs w ++ earlier ++ [failedEntry error; failureEntry error].
Proof.
  intros Hmode Hsrc Hbuf Hout. destruct w as [m sf im lg st ai lo co dl].
  cbn [mode sourceFile] in Hmode, Hsrc. subst m sf.
  unfold startConversion. fields.
  rewrite (wordToMarkdown_unfold _ _ _ Hbuf). cbv zeta.
  rewrite Hout. fields. do 4 (split; [reflexivity|]).
  exists (initiatingEntry DOCX_TO_MD
            :: analyzingEntry
            :: map assetEntry
                 (seq 1 (length
                           (supplied
                              (fst (await
                                      (mammoth_convertToMarkdown buffer
                                                                 styleMap)
                                      1 [])))))).
  cbn [closingEntries]. rewrite <- !app_assoc. cbn [app].
  now rewrite <- !app_assoc.
Qed.

(** X22.  From Word to markdown, when the decoder resolves: the run ends
    in [COMPLETED], and the text kept as last output is the text
    downloaded, under the stem of the source name and [.md].  It is the
    cleaned-up value of the decoder when the AI switch is off, and also
    when it is on and the service throws; a polisher that fails does not
    fail the conversion. *)
Theorem word_to_markdown_output
        (w : World Blob) (source : FileData) (buffer : ArrayBuffer)
        (value : jsstring) :
  mode w = DOCX_TO_MD -> sourceFile w = Some source ->
  arrayBuffer source = Some buffer ->
  outcome (fst (await (mammoth_convertToMarkdown buffer styleMap) 1 []))
  = Value value ->
  let markdown :=
    polishedText generateContent (isAiEnabled w) (postProcess value)
                 (console w) in
  status (run w) = COMPLETED
  /\ lastOutput (run w) = Some markdown
  /\ downloads (run w)
     = downloads w
         ++ [MarkdownText Blob markdown
               (stemOf (name (file source)) ++ lit ".md")]
  /\ (isAiEnabled w = false -> markdown = postProcess value)
  /\ (forall thrown,
         generateContent modelName (contentsFor (postProcess value))
         = inr thrown ->
         markdown = postProcess value)
  /\ exists earlier, logs (run w) = logs w ++ earlier ++ [successEntry].
Proof.
  intros Hmode Hsrc Hbuf Hout. destruct w as [m sf im lg st ai lo co dl].
  cbn [mode sourceFile] in Hmode, Hsrc. subst m sf.
  cbv zeta. unfold startConversion. fields.
  rewrite (wordToMarkdown_unfold _ _ _ Hbuf). cbv zeta.
  rewrite Hout. fields. do 3 (split; [reflexivity|]).
  split; [|split].
  - intros Hai. unfold polishedText. now rewrite Hai.
  - intros thrown Hthrown. unfold polishedText, polishMarkdown.
    rewrite Hthrown. now destruct ai.
  - apply (@grown_then lg _ successEntry). grown.
Qed.

(** X23.  A Word source whose bytes are missing stops the pipeline
    before the decoder is consulted: the log gains the initiating entry
    and [Failure: File buffer missing.] and nothing else, and the run
    ends in [ERROR] without a download. *)
Theorem word_source_without_bytes (w : World Blob) (source : FileData) :
  mode w = DOCX_TO_MD -> sourceFile w = Some source ->
  arrayBuffer source = None ->
  status (run w) = ERROR
  /\ downloads (run w) = downloads w
  /\ logs (run w)
     = logs w ++ [initiatingEntry DOCX_TO_MD;
                  (lit "Failure: File buffer missing.", LError)]
  /\ console (run w)
     = console w ++ [([], ErrorObject (lit "File buffer missing."))].
Proof.
  intros Hmode Hsrc Hbuf. destruct w as [m sf im lg st ai lo co dl].
  cbn [mode sourceFile] in Hmode, Hsrc. subst m sf.
  unfold startConversion. fields. unfold wordToMarkdown.
  rewrite Hbuf. fields. rewrite <- !app_assoc.
  repeat split; reflexivity.
Qed.

End Pipeline.

Import Sample.

Lemma markdown_to_word_fails_only_in_the_packer_witness :
  status (startConversion lexer packs decodes offline
                          (idle MD_TO_DOCX (Some notesMd) true))
  = COMPLETED
  /\ downloads (startConversion lexer packs decodes offline
                                (idle MD_TO_DOCX (Some notesMd) true))
     = [] ++ [PackedDocument 1 (stemOf (lit "notes.v2.md") ++ lit ".docx")].
Proof.
  exact (proj1 (@markdown_to_word_fails_only_in_the_packer
                  nat lexer packs decodes offline
                  (idle MD_TO_DOCX (Some notesMd) true) notesMd
                  eq_refl eq_refl)).
Defined.

Lemma decode_failure_is_reported_twice_witness :
  status (startConversion lexer packs decoderRejects offline
                          (idle DOCX_TO_MD (Some reportDocx) false))
  = ERROR.
Proof.
  exact (proj1 (@decode_failure_is_reported_twice
                  nat lexer packs decoderRejects offline
                  (idle DOCX_TO_MD (Some reportDocx) false) reportDocx
                  [x50%byte; x4b%byte] (ErrorObject (lit "Corrupted zip"))
                  eq_refl eq_refl eq_refl eq_refl)).
Defined.

Lemma word_to_markdown_output_witness :
  lastOutput (startConversion lexer packs decodes offline
                              (idle DOCX_TO_MD (Some reportDocx) true))
  = Some (Polishing.polishedText offline true
            (postProcess (asImage (placeholder 1))) []).
Proof.
  exact (proj1 (proj2 (@word_to_markdown_output
                         nat lexer packs decodes offline
                         (idle DOCX_TO_MD (Some reportDocx) true) reportDocx
                         [x50%byte; x4b%byte] (asImage (placeholder 1))
                         eq_refl eq_refl eq_refl eq_refl))).
Defined.

Lemma word_source_without_bytes_witness :
  status (startConversion lexer packs decodes offline
                          (idle DOCX_TO_MD (Some emptyDocx) false))
  = ERROR.
Proof.
  exact (proj1 (@word_source_without_bytes
                  nat lexer packs decodes offline
                  (idle DOCX_TO_MD (Some emptyDocx) false) emptyDocx
                  eq_refl eq_refl eq_refl)).
Defined.

Section Upload.

Variable Blob : Type.

Lemma fileMap_set_keys (uploaded : FileMap) (key : jsstring) (val : FileData)
      (k : jsstring) :
  In k (map fst (fileMap_set uploaded key val))
  <-> k = key \/ In k (map fst uploaded).
Proof.
  induction uploaded as [|[k' v'] rest IH]; simpl.
  - intuition auto.
  - destruct (str_eqb k' key) eqn:E; simpl.
    + apply str_eqb_eq in E. subst k'. intuition auto.
    + rewrite IH. intuition auto.
Qed.

(** A run of [onload] events: the counter, the log and the keys. *)
Lemma onloads_run (total : nat) (events : list (File * option ArrayBuffer)) :
  forall (count : nat) (w : World Blob),
    let r := onloads total events count w in
    fst r = count + length events
    /\ logs (snd r)
       = logs w
           ++ (if ((count <? total) && (total <=? count + length events))%nat
               then [processedEntry total] else [])
    /\ (forall k,
           In k (map fst (images (snd r)))
           <-> In k (map fst (images w))
               \/ In k (map (fun e => pathKeyOf (fst e)) events)).
Proof.
  induction events as [|[f result] later IH]; intros count w; cbv zeta;
    destruct w as [m sf im lg st ai lo co dl].
  - cbn [onloads fst snd length map]. fields. rewrite Nat.add_0_r.
    split; [reflexivity|]. split; [|intros k; cbn [In]; tauto].
    destruct (Nat.ltb_spec count total), (Nat.leb_spec total count);
      cbn [andb]; try lia; now rewrite app_nil_r.
  - cbn [onloads]. unfold onload.
    destruct (Nat.eqb_spec (S count) total) as [Heq|Hne]; fields;
      match goal with
      | |- context [onloads total later (S count) ?w1] =>
          destruct (IH (S count) w1) as (Hc & Hl & Hk)
      end;
      cbv [logs images] in Hl, Hk; cbv zeta in Hc;
      rewrite Hc, Hl; cbn [length];
      (split; [lia|]); split.
    + unfold processedEntry. fields. rewrite <- app_assoc. f_equal.
      subst total.
      destruct (Nat.ltb_spec (S count) (S count)); [lia|].
      destruct (Nat.ltb_spec count (S count)); [|lia].
      destruct (Nat.leb_spec (S count) (count + S (length later))); [|lia].
      reflexivity.
    + intros k. rewrite Hk. fields. rewrite fileMap_set_keys.
      cbn [map fst In]. intuition auto.
    + fields. f_equal.
      replace (S count + length later) with (count + S (length later))
        by lia.
      destruct (Nat.ltb_spec (S count) total),
        (Nat.ltb_spec count total),
        (Nat.leb_spec total (count + S (length later)));
        cbn [andb]; try reflexivity; lia.
    + intros k. rewrite Hk. fields. rewrite fileMap_set_keys.
      cbn [map fst In]. intuition auto.
Qed.

(** X24.  An upload of [n] files logs [Scanning n files...] at once and
    [Successfully processed n assets ...] exactly once, when the last of
    the [n] readers has finished, in whatever order they finish; as long
    as a reader is outstanding, and for an empty selection, the second
    entry is not logged.  Afterwards the map holds the keys it held
    before and the path key of every file read. *)
Theorem upload_is_reported_once
        (files : list File) (events : list (File * option ArrayBuffer))
        (w : World Blob) :
  length events = length files ->
  let n := length files in
  let scanning :=
    (lit "Scanning " ++ decimal n ++ lit " files...", LInfo) in
  let started := handleImageUpload (Some files) w in
  let done := onloads n events 0 started in
  fst done = n
  /\ logs (snd done)
     = logs w
         ++ scanning :: (if (0 <? n)%nat then [processedEntry n] else [])
  /\ (forall k,
         In k (map fst (images (snd done)))
         <-> In k (map fst (images w))
             \/ In k (map (fun e => pathKeyOf (fst e)) events))
  /\ (forall fewer,
         length fewer < n ->
         logs (snd (onloads n fewer 0 started)) = logs w ++ [scanning]).
Proof.
  intros Hlen n scanning started done.
  destruct (onloads_run n events 0 started) as (Hc & Hl & Hk).
  cbv zeta in Hc, Hl, Hk. fold done in Hc, Hl, Hk.
  assert (Hstarted : logs started = logs w ++ [scanning]
                     /\ images started = images w).
  { subst started. destruct w. split; reflexivity. }
  destruct Hstarted as [Hlogs Himages].
  split; [subst n; lia|]. split; [|split].
  - rewrite Hl, Hlogs, <- app_assoc. cbn [app]. do 2 f_equal.
    rewrite Hlen. fold n. cbn [Nat.add].
    now rewrite Nat.leb_refl, andb_true_r.
  - intros k. rewrite Hk, Himages. tauto.
  - intros fewer Hfewer.
    destruct (onloads_run n fewer 0 started) as (_ & Hl' & _).
    cbv zeta in Hl'. rewrite Hl', Hlogs. cbn [Nat.add].
    destruct (Nat.leb_spec n (length fewer)); [lia|].
    now rewrite andb_false_r, app_nil_r.
Qed.

End Upload.

Lemma upload_is_reported_once_witness :
  logs (snd (onloads 2 [(figureB, Some [x02%byte]); (figureA, None)] 0
                     (handleImageUpload (Some [figureA; figureB])
                                        (idle MD_TO_DOCX None false))))
  = [] ++ [(lit "Scanning " ++ decimal 2 ++ lit " files...", LInfo);
           processedEntry 2].
Proof.
  exact (proj1 (proj2 (@upload_is_reported_once
                         nat [figureA; figureB]
                         [(figureB, Some [x02%byte]); (figureA, None)]
                         (idle MD_TO_DOCX None false) eq_refl))).
Defined.

End AppProofs.
